(** * ms_tools: delegated token manager and identifier resolver

    A shallow embedding of [tokenManager.js] (the delegated credential
    manager: [getUserIdFromToken], [refreshAccessToken], [isTokenExpired],
    [saveTokenCache], [getDelegatedToken], [clearUserToken]) and of
    [tools.idResolver.js] ([findTeamIdByName], [findUserId],
    [findMeetingId], [resolveTeamId], [resolveUserId]), followed by the
    properties of the specification that concern them.

    Conventions of the embedding.
    - A JavaScript value that is either a string or [undefined]/[null] is
      an [option string]; it is truthy when it is a non-empty string.
    - Time values (milliseconds since the epoch) and token lifetimes are
      integers ([Z]).  A [Date] built from a time value outside of
      [+-8.64e15] is an invalid date, and [toISOString] throws a
      [RangeError] on it: the places where the source formats a date are
      modelled with that exception.
    - Strings are byte strings; [toLowerCase] acts on the ASCII letters.
    - Everything outside of the process (the clock, the token endpoint,
      the file system, the Graph API) and the library decoder of a token
      payload are an [Env]: an abstract world with one transition function
      per kind of interaction.  Each call of the process to the network is
      recorded in [calls], each line written to the console in [console]. *)

From stdpp Require Import gmap strings list.
From Stdlib Require Import ZArith Ascii String Sorted.

Local Open Scope string_scope.
Local Open Scope Z_scope.

(** ** JavaScript values *)

Definition truthy (v : option string) : bool :=
  match v with
  | Some s => negb (String.eqb s "")
  | None => false
  end.

(** The string of a truthy value. *)
Definition str (v : option string) : string := default "" v.

(** [a || b] *)
Definition js_or (a b : option string) : option string :=
  if truthy a then a else b.

Fixpoint drop_chars (n : nat) (s : string) : string :=
  match n, s with
  | O, _ => s
  | S n', String _ s' => drop_chars n' s'
  | S _, EmptyString => EmptyString
  end.

(** [s.startsWith(p)] *)
Fixpoint startsWith (p s : string) : bool :=
  match p, s with
  | EmptyString, _ => true
  | String a p', String b s' => Ascii.eqb a b && startsWith p' s'
  | String _ _, EmptyString => false
  end.

(** [s.includes(p)] *)
Fixpoint includes (p s : string) : bool :=
  startsWith p s ||
  match s with
  | EmptyString => false
  | String _ s' => includes p s'
  end.

(** [s.split(c)] for a one-character separator. *)
Fixpoint split_on (c : ascii) (s : string) : list string :=
  match s with
  | EmptyString => [EmptyString]
  | String a s' =>
      if Ascii.eqb a c then EmptyString :: split_on c s'
      else match split_on c s' with
           | h :: t => String a h :: t
           | [] => [String a EmptyString]
           end
  end.

Definition lower_ascii (a : ascii) : ascii :=
  let n := nat_of_ascii a in
  if ((65 <=? n)%nat && (n <=? 90)%nat)%bool then ascii_of_nat (n + 32) else a.

(** [s.toLowerCase()] *)
Fixpoint toLowerCase (s : string) : string :=
  match s with
  | EmptyString => EmptyString
  | String a s' => String (lower_ascii a) (toLowerCase s')
  end.

(** The range of time values of a valid [Date]. *)
Definition validTime (t : Z) : bool :=
  (-8640000000000000 <=? t) && (t <=? 8640000000000000).

(** ** Data *)

Inductive error := Error (message : string).

Definition message (e : error) : string := let 'Error m := e in m.

Inductive result (A : Type) :=
| Ok (a : A)
| Throw (e : error).
Arguments Ok {A} a.
Arguments Throw {A} e.

(** The claims of a decoded token payload that the manager reads. *)
Record claims := { oid : option string; sub : option string; exp : option Z }.

(** The body of a successful answer of the token endpoint. *)
Record token_response :=
  { access_token : string; refresh_token : option string; expires_in : Z }.

(** What [refreshAccessToken] returns. *)
Record refreshed :=
  { r_accessToken : string; r_refreshToken : option string; r_expiresIn : Z }.

(** A value of [userTokenCache]. *)
Record record :=
  { accessToken : string; refreshToken : option string; expiresAt : Z }.

Record headers := { authorization : option string; x_refresh_token : option string }.
Record body := { body_refreshToken : option string; body_accessToken : option string }.
Record request := { req_headers : headers; req_body : option body }.

(** An object of a Graph collection, with the properties the resolver
    reads: [id], [displayName], [subject],
    [participants?.organizer?.identity?.user?.id] and the time value of
    [startDateTime]. *)
Record resource :=
  { id : string;
    displayName : option string;
    subject : option string;
    organizer : option string;
    startDateTime : option Z }.

(** The body of an answer of the Graph API: [value] and [id]. *)
Record response := { value : option (list resource); resp_id : option string }.

Inductive call :=
| CallTokenEndpoint (refresh : string)
| CallGraphGet (token path : string).

Inductive log_msg :=
| LogNoAccessToken
| LogProcessing (userId : string)
| LogTokenExpired (exp now : Z)
| ErrDecodeToken
| ErrCheckExpiry
| ErrTokenRefreshFailed
| ErrSaveTokenCache
| LogProvidedExpiredRefreshing
| LogRefreshedSuccessfully (userId : string)
| ErrRefreshProvided (userId : string) (msg : string)
| LogFoundCached (userId : string) (expiresAt : Z)
| LogUsingCached
| LogCachedExpiredRefreshing (provided : bool)
| LogRefreshed (userId : string)
| ErrRefresh (userId : string) (msg : string)
| LogFreshCached (userId : string)
| LogNotCachingExpired
| LogRefreshedAndCached (userId : string)
| ErrRefreshOnly (msg : string)
| LogReturningProvided.

(** The pattern
    [/^[0-9a-f]{8}-[0-9a-f]{4}-[0-9a-f]{4}-[0-9a-f]{4}-[0-9a-f]{12}$/i]. *)
Definition is_hex (a : ascii) : bool :=
  let n := nat_of_ascii a in
  ((48 <=? n)%nat && (n <=? 57)%nat) ||
  ((97 <=? n)%nat && (n <=? 102)%nat) ||
  ((65 <=? n)%nat && (n <=? 70)%nat).

(** [n] hexadecimal digits at the head of [s]: what follows them. *)
Fixpoint hex_run (n : nat) (s : string) : option string :=
  match n, s with
  | O, _ => Some s
  | S n', String a s' => if is_hex a then hex_run n' s' else None
  | S _, EmptyString => None
  end.

Definition dash (s : string) : option string :=
  match s with
  | String a s' => if Ascii.eqb a "-" then Some s' else None
  | EmptyString => None
  end.

(** Groups of hexadecimal digits separated by dashes, at the head of [s]. *)
Fixpoint hex_groups (groups : list nat) (s : string) : option string :=
  match groups with
  | [] => Some s
  | n :: rest =>
      match hex_run n s with
      | Some r =>
          match rest with
          | [] => Some r
          | _ :: _ =>
              match dash r with
              | Some r' => hex_groups rest r'
              | None => None
              end
          end
      | None => None
      end
  end.

Definition matchesGuid (s : string) : bool :=
  match hex_groups [8; 4; 4; 4; 12]%nat s with
  | Some EmptyString => true
  | _ => false
  end.

(** [Array.prototype.sort(cmp)] for a consistent comparator: the stable
    sort, [a] staying before [b] when [cmp a b <= 0]. *)
Fixpoint sort_insert {A} (cmp : A -> A -> Z) (x : A) (l : list A) : list A :=
  match l with
  | [] => [x]
  | y :: l' => if cmp x y <=? 0 then x :: y :: l' else y :: sort_insert cmp x l'
  end.

Fixpoint js_sort {A} (cmp : A -> A -> Z) (l : list A) : list A :=
  match l with
  | [] => []
  | x :: l' => sort_insert cmp x (js_sort cmp l')
  end.

(** The criteria of [findMeetingId]; [afterDate] is the time value of
    [new Date(afterDate)]. *)
Record criteria :=
  { title : option string; organizerEmail : option string; afterDate : option Z }.

(** ** The environment *)

Record Env :=
  { W : Type;
    (** [Date.now()] *)
    date_now : W -> Z * W;
    (** [axios.post] to the token endpoint with a refresh token: the body
        of the answer, or [None] when the promise rejects. *)
    post_token : string -> W -> option token_response * W;
    (** [fs.writeFileSync]: [false] when it throws. *)
    write_file : W -> bool * W;
    (** [GraphClient.get(path)] with the client's token: the body of the
        answer, or the error the promise rejects with. *)
    graph_get : string -> string -> W -> (error + response) * W;
    (** [JSON.parse(Buffer.from(payload, 'base64').toString())], read at
        [oid], [sub] and [exp]: [None] when one of these throws. *)
    parse_payload : string -> option claims }.

Section Process.

Context (E : Env).

(** The state of the process: the module-level [userTokenCache], the
    content of [TOKEN_CACHE_FILE] ([None]: no file), the world, and the
    traces. *)
Record state :=
  { userTokenCache : gmap string record;
    tokenCacheFile : option (gmap string record);
    world : W E;
    calls : list call;
    console : list log_msg }.

Definition M (A : Type) : Type := state -> result A * state.

Definition ret {A} (a : A) : M A := fun s => (Ok a, s).

Definition bind {A B} (m : M A) (f : A -> M B) : M B :=
  fun s => match m s with
           | (Ok a, s') => f a s'
           | (Throw e, s') => (Throw e, s')
           end.

Definition throw {A} (e : error) : M A := fun s => (Throw e, s).

(** [try { m } catch (e) { h e }] *)
Definition try_catch {A} (m : M A) (h : error -> M A) : M A :=
  fun s => match m s with
           | (Ok a, s') => (Ok a, s')
           | (Throw e, s') => h e s'
           end.

Notation "x <- m ;; k" := (bind m (fun x => k))
  (at level 100, m at next level, right associativity).
Notation "m ;;; k" := (bind m (fun _ => k))
  (at level 100, right associativity).

Definition with_world (w : W E) (s : state) : state :=
  {| userTokenCache := userTokenCache s; tokenCacheFile := tokenCacheFile s;
     world := w; calls := calls s; console := console s |}.

Definition with_cache (m : gmap string record) (s : state) : state :=
  {| userTokenCache := m; tokenCacheFile := tokenCacheFile s;
     world := world s; calls := calls s; console := console s |}.

Definition with_file (f : option (gmap string record)) (s : state) : state :=
  {| userTokenCache := userTokenCache s; tokenCacheFile := f;
     world := world s; calls := calls s; console := console s |}.

(** [console.log] and [console.error] *)
Definition log (l : log_msg) : M unit :=
  fun s => (Ok tt,
            {| userTokenCache := userTokenCache s; tokenCacheFile := tokenCacheFile s;
               world := world s; calls := calls s; console := console s ++ [l] |}).

Definition record_call (c : call) (s : state) : state :=
  {| userTokenCache := userTokenCache s; tokenCacheFile := tokenCacheFile s;
     world := world s; calls := calls s ++ [c]; console := console s |}.

Definition Date_now : M Z :=
  fun s => let '(t, w) := date_now E (world s) in (Ok t, with_world w s).

Definition axios_post_token (refreshToken : string) : M token_response :=
  fun s =>
    let s := record_call (CallTokenEndpoint refreshToken) s in
    match post_token E refreshToken (world s) with
    | (Some r, w) => (Ok r, with_world w s)
    | (None, w) => (Throw (Error "Request failed"), with_world w s)
    end.

Definition client_get (token path : string) : M response :=
  fun s =>
    let s := record_call (CallGraphGet token path) s in
    match graph_get E token path (world s) with
    | (inr r, w) => (Ok r, with_world w s)
    | (inl e, w) => (Throw e, with_world w s)
    end.

Definition get_cache : M (gmap string record) :=
  fun s => (Ok (userTokenCache s), s).

(** [userTokenCache.set(userId, r)] *)
Definition cache_set (userId : string) (r : record) : M unit :=
  fun s => (Ok tt, with_cache (<[userId := r]> (userTokenCache s)) s).

(** [userTokenCache.delete(userId)] *)
Definition cache_delete (userId : string) : M unit :=
  fun s => (Ok tt, with_cache (delete userId (userTokenCache s)) s).

(** ** tokenManager.js *)

(** [saveTokenCache]: the object written has one entry per identity, the
    expiry as an ISO date; an invalid date or a failing write is caught
    and logged, and the file keeps its content. *)
Definition serializable (cache : gmap string record) : bool :=
  forallb (fun kv => validTime (expiresAt kv.2)) (map_to_list cache).

Definition saveTokenCache (cache : gmap string record) : M unit :=
  if serializable cache then
    fun s =>
      match write_file E (world s) with
      | (true, w) => (Ok tt, with_file (Some cache) (with_world w s))
      | (false, w) => log ErrSaveTokenCache (with_world w s)
      end
  else log ErrSaveTokenCache.

(** [token.split('.')[1]], then the decoder; [Buffer.from(undefined)]
    throws. *)
Definition decodeToken (token : string) : option claims :=
  match split_on "." token !! 1%nat with
  | Some payload => parse_payload E payload
  | None => None
  end.

Definition getUserIdFromToken (token : string) : M string :=
  match decodeToken token with
  | Some decoded =>
      ret (str (js_or (js_or (oid decoded) (sub decoded)) (Some "default-user")))
  | None => log ErrDecodeToken ;;; ret "default-user"
  end.

Definition refreshAccessToken (refreshToken : string) : M refreshed :=
  try_catch
    (response <- axios_post_token refreshToken ;;
     ret {| r_accessToken := access_token response;
            r_refreshToken := js_or (refresh_token response) (Some refreshToken);
            r_expiresIn := expires_in response |})
    (fun _ => log ErrTokenRefreshFailed ;;;
              throw (Error "Failed to refresh access token")).

(** [isTokenExpired]: [decoded.exp * 1000] is [NaN] without an [exp]
    claim, and [now >= NaN] is false.  The log line of an expired token
    formats [new Date(exp)], inside the [try]. *)
Definition isTokenExpired (token : string) : M bool :=
  match decodeToken token with
  | Some decoded =>
      now <- Date_now ;;
      match exp decoded with
      | Some e =>
          let exp := e * 1000 in
          let isExpired := exp <=? now in
          if isExpired then
            if validTime exp && validTime now then
              log (LogTokenExpired exp now) ;;; ret isExpired
            else log ErrCheckExpiry ;;; ret false
          else ret isExpired
      | None => ret false
      end
  | None => log ErrCheckExpiry ;;; ret false
  end.

(** Lines 364-381: the refresh with the provided refresh token when the
    provided access token is expired. *)
Definition refreshWithProvided (userId refreshToken : string) : M (option string) :=
  log LogProvidedExpiredRefreshing ;;;
  try_catch
    (refreshedTokens <- refreshAccessToken refreshToken ;;
     now <- Date_now ;;
     cache_set userId
       {| accessToken := r_accessToken refreshedTokens;
          refreshToken := r_refreshToken refreshedTokens;
          expiresAt := now + (r_expiresIn refreshedTokens - 60) * 1000 |} ;;;
     cache <- get_cache ;;
     saveTokenCache cache ;;;
     log (LogRefreshedSuccessfully userId) ;;;
     ret (Some (r_accessToken refreshedTokens)))
    (fun error =>
       log (ErrRefreshProvided userId (message error)) ;;;
       throw error).

(** Lines 400-421: the refresh of an expired cached record. *)
Definition refreshCached (userId tokenToUse : string) : M (option string) :=
  try_catch
    (refreshedTokens <- refreshAccessToken tokenToUse ;;
     now <- Date_now ;;
     cache_set userId
       {| accessToken := r_accessToken refreshedTokens;
          refreshToken := r_refreshToken refreshedTokens;
          expiresAt := now + (r_expiresIn refreshedTokens - 60) * 1000 |} ;;;
     cache <- get_cache ;;
     saveTokenCache cache ;;;
     log (LogRefreshed userId) ;;;
     ret (Some (r_accessToken refreshedTokens)))
    (fun error =>
       log (ErrRefresh userId (message error)) ;;;
       cache_delete userId ;;;
       cache <- get_cache ;;
       saveTokenCache cache ;;;
       throw error).

(** Lines 424-459: what follows the cache lookup when it returned
    nothing usable; [providedAccess] and [providedRefresh] are the
    source's [accessToken] and [refreshToken]. *)
Definition cacheOrReturnProvided (userId providedAccess : string)
    (providedRefresh : option string) (providedTokenExpired : bool) : M (option string) :=
  if truthy providedRefresh then
    if negb providedTokenExpired then
      now <- Date_now ;;
      cache_set userId
        {| accessToken := providedAccess;
           refreshToken := providedRefresh;
           expiresAt := now + 55 * 60 * 1000 |} ;;;
      cache <- get_cache ;;
      saveTokenCache cache ;;;
      log (LogFreshCached userId) ;;;
      ret (Some providedAccess)
    else
      log LogNotCachingExpired ;;;
      try_catch
        (refreshedTokens <- refreshAccessToken (str providedRefresh) ;;
         now <- Date_now ;;
         cache_set userId
           {| accessToken := r_accessToken refreshedTokens;
              refreshToken := r_refreshToken refreshedTokens;
              expiresAt := now + (r_expiresIn refreshedTokens - 60) * 1000 |} ;;;
         cache <- get_cache ;;
         saveTokenCache cache ;;;
         log (LogRefreshedAndCached userId) ;;;
         ret (Some (r_accessToken refreshedTokens)))
        (fun error =>
           log (ErrRefreshOnly (message error)) ;;;
           throw error)
  else
    log LogReturningProvided ;;;
    ret (Some providedAccess).

(** Lines 384-459. *)
Definition lookupCached (userId providedAccess : string)
    (providedRefresh : option string) (providedTokenExpired : bool) : M (option string) :=
  cache <- get_cache ;;
  match cache !! userId with
  | Some cachedData =>
      (if validTime (expiresAt cachedData)
       then log (LogFoundCached userId (expiresAt cachedData))
       else throw (Error "Invalid time value")) ;;;
      now <- Date_now ;;
      if now <? expiresAt cachedData then
        log LogUsingCached ;;;
        ret (Some (accessToken cachedData))
      else
        let tokenToUse := js_or providedRefresh (refreshToken cachedData) in
        log (LogCachedExpiredRefreshing (truthy providedRefresh)) ;;;
        if truthy tokenToUse then refreshCached userId (str tokenToUse)
        else cacheOrReturnProvided userId providedAccess providedRefresh providedTokenExpired
  | None => cacheOrReturnProvided userId providedAccess providedRefresh providedTokenExpired
  end.

(** The access token of a request: the [Authorization] header, without
    its [Bearer ] prefix, else [req.body?.accessToken]. *)
Definition requestAccessToken (req : request) : option string :=
  let authHeader := authorization (req_headers req) in
  let accessToken :=
    if truthy authHeader then
      if startsWith "Bearer " (str authHeader)
      then Some (drop_chars 7 (str authHeader))
      else authHeader
    else None in
  if truthy accessToken then accessToken
  else req_body req ≫= body_accessToken.

(** [req.headers['x-refresh-token'] || req.body?.refreshToken] *)
Definition requestRefreshToken (req : request) : option string :=
  js_or (x_refresh_token (req_headers req)) (req_body req ≫= body_refreshToken).

Definition getDelegatedToken (req : request) : M (option string) :=
  let accessToken := requestAccessToken req in
  let refreshToken := requestRefreshToken req in
  if negb (truthy accessToken) then
    log LogNoAccessToken ;;;
    ret None
  else
    let accessToken := str accessToken in
    userId <- getUserIdFromToken accessToken ;;
    log (LogProcessing userId) ;;;
    providedTokenExpired <- isTokenExpired accessToken ;;
    if providedTokenExpired && truthy refreshToken then
      refreshWithProvided userId (str refreshToken)
    else
      lookupCached userId accessToken refreshToken providedTokenExpired.

Definition clearUserToken (token : string) : M unit :=
  userId <- getUserIdFromToken token ;;
  cache_delete userId ;;;
  cache <- get_cache ;;
  saveTokenCache cache.

(** ** graphClient.js and tools.idResolver.js *)

(** [new GraphClient(accessToken)]: the client is its token. *)
Definition new_GraphClient (accessToken : string) : M string :=
  if String.eqb accessToken "" then
    throw (Error "accessToken is required to initialize GraphClient")
  else ret accessToken.

(** [t => t.displayName?.toLowerCase() === name.toLowerCase()] *)
Definition sameDisplayName (name : string) (t : resource) : bool :=
  match displayName t with
  | Some d => String.eqb (toLowerCase d) (toLowerCase name)
  | None => false
  end.

(** [if (r.value) { const t = r.value.find(p); if (t) return t.id; }] *)
Definition findIn (p : resource -> bool) (r : response) : option string :=
  match value r with
  | Some l => id <$> List.find p l
  | None => None
  end.

Definition findTeamIdByName (accessToken teamName : string) : M (option string) :=
  client <- new_GraphClient accessToken ;;
  try_catch
    (teams <- client_get client "/me/joinedTeams" ;;
     match findIn (sameDisplayName teamName) teams with
     | Some i => ret (Some i)
     | None =>
         try_catch
           (allTeams <- client_get client "/teams" ;;
            ret (findIn (sameDisplayName teamName) allTeams))
           (fun _ => ret None)
     end)
    (fun error => throw (Error ("Failed to find team: " ++ message error))).

(** [if (users.value && users.value.length > 0) return users.value[0].id] *)
Definition firstId (users : response) : option string :=
  match value users with
  | Some (u :: _) => Some (id u)
  | _ => None
  end.

Definition usersByDisplayName (client emailOrName : string) : M (option string) :=
  users <- client_get client
             ("/users?$filter=startswith(displayName,'" ++ emailOrName ++ "')") ;;
  match firstId users with
  | Some i => ret (Some i)
  | None =>
      try_catch
        (user <- client_get client ("/users/" ++ emailOrName) ;;
         ret (resp_id user))
        (fun _ => ret None)
  end.

Definition findUserId (accessToken emailOrName : string) : M (option string) :=
  client <- new_GraphClient accessToken ;;
  try_catch
    (if includes "@" emailOrName then
       users <- client_get client
                  ("/users?$filter=startswith(mail,'" ++ emailOrName
                   ++ "') or mail eq '" ++ emailOrName ++ "'") ;;
       match firstId users with
       | Some i => ret (Some i)
       | None => usersByDisplayName client emailOrName
       end
     else usersByDisplayName client emailOrName)
    (fun error => throw (Error ("Failed to find user: " ++ message error))).

(** [m => m.subject?.toLowerCase().includes(title.toLowerCase())] *)
Definition titleMatches (title : string) (m : resource) : bool :=
  match subject m with
  | Some sj => includes (toLowerCase title) (toLowerCase sj)
  | None => false
  end.

(** [m => m.participants?.organizer?.identity?.user?.id === organizerId] *)
Definition organizedBy (organizerId : string) (m : resource) : bool :=
  match organizer m with
  | Some o => String.eqb o organizerId
  | None => false
  end.

(** [m => { const startTime = ...; return startTime && startTime >= after; }] *)
Definition startsAfter (after : Z) (m : resource) : bool :=
  match startDateTime m with
  | Some startTime => after <=? startTime
  | None => false
  end.

(** [a.startDateTime ? new Date(a.startDateTime) : new Date(0)] *)
Definition startOrEpoch (m : resource) : Z := default 0 (startDateTime m).

(** [(a, b) => bTime - aTime] *)
Definition mostRecentFirst (a b : resource) : Z := startOrEpoch b - startOrEpoch a.

Definition filterIf {A} (c : bool) (p : A -> bool) (l : list A) : list A :=
  if c then List.filter p l else l.

Definition findMeetingId (accessToken : string) (c : criteria) : M (option string) :=
  client <- new_GraphClient accessToken ;;
  try_catch
    (meetings <- client_get client "/me/onlineMeetings" ;;
     match value meetings with
     | None | Some [] => ret None
     | Some all =>
         let filtered := filterIf (truthy (title c)) (titleMatches (str (title c))) all in
         filtered <-
           (if truthy (organizerEmail c) then
              organizerId <- findUserId accessToken (str (organizerEmail c)) ;;
              ret (filterIf (truthy organizerId) (organizedBy (str organizerId)) filtered)
            else ret filtered) ;;
         let filtered :=
           match afterDate c with
           | Some after => List.filter (startsAfter after) filtered
           | None => filtered
           end in
         let filtered := js_sort mostRecentFirst filtered in
         ret (id <$> head filtered)
     end)
    (fun error => throw (Error ("Failed to find meeting: " ++ message error))).

Definition resolveTeamId (accessToken : string) (teamIdOrName : option string)
    : M (option string) :=
  if negb (truthy teamIdOrName) then ret None
  else if matchesGuid (str teamIdOrName) then ret teamIdOrName
  else findTeamIdByName accessToken (str teamIdOrName).

Definition resolveUserId (accessToken : string) (userIdOrEmailOrName : option string)
    : M (option string) :=
  if negb (truthy userIdOrEmailOrName) then ret None
  else if matchesGuid (str userIdOrEmailOrName) then ret userIdOrEmailOrName
  else findUserId accessToken (str userIdOrEmailOrName).

End Process.

Arguments userTokenCache {E} s.
Arguments tokenCacheFile {E} s.
Arguments world {E} s.
Arguments calls {E} s.
Arguments console {E} s.
Arguments ret {E A} a s.
Arguments bind {E A B} m f s.
Arguments throw {E A} e s.
Arguments try_catch {E A} m h s.
Arguments log {E} l s.
Arguments with_world {E} w s.
Arguments with_cache {E} m s.
Arguments with_file {E} f s.
Arguments record_call {E} c s.
Arguments Date_now {E} s.
Arguments axios_post_token {E} refreshToken s.
Arguments client_get {E} token path s.
Arguments get_cache {E} s.
Arguments cache_set {E} userId r s.
Arguments cache_delete {E} userId s.
Arguments saveTokenCache {E} cache s.
Arguments getUserIdFromToken {E} token s.
Arguments refreshAccessToken {E} refreshToken s.
Arguments isTokenExpired {E} token s.
Arguments refreshWithProvided {E} userId refreshToken s.
Arguments refreshCached {E} userId tokenToUse s.
Arguments cacheOrReturnProvided {E} userId providedAccess providedRefresh providedTokenExpired s.
Arguments lookupCached {E} userId providedAccess providedRefresh providedTokenExpired s.
Arguments getDelegatedToken {E} req s.
Arguments clearUserToken {E} token s.
Arguments new_GraphClient {E} accessToken s.
Arguments findTeamIdByName {E} accessToken teamName s.
Arguments usersByDisplayName {E} client emailOrName s.
Arguments findUserId {E} accessToken emailOrName s.
Arguments findMeetingId {E} accessToken c s.
Arguments resolveTeamId {E} accessToken teamIdOrName s.
Arguments resolveUserId {E} accessToken userIdOrEmailOrName s.

(** ** More of tools.idResolver.js *)

(** What [findChannelIdByName] and [resolveChannelId] return:
    [{ channelId, teamId }]; [teamId] is [null] when [resolveChannelId]
    could not resolve the team of a channel given by its identifier. *)
Record channel_ref := { channelId : string; teamId : option string }.

Section Channels.

Context (E : Env).

Notation "x <- m ;; k" := (bind m (fun x => k))
  (at level 100, m at next level, right associativity).

Definition findChannelIdByName (accessToken channelName teamIdOrName : string)
    : M E (option channel_ref) :=
  client <- new_GraphClient accessToken ;;
  team <-
    (if negb (matchesGuid teamIdOrName) then
       found <- findTeamIdByName accessToken teamIdOrName ;;
       if negb (truthy found) then throw (Error ("Team not found: " ++ teamIdOrName))
       else ret (str found)
     else ret teamIdOrName) ;;
  try_catch
    (channels <- client_get client ("/teams/" ++ team ++ "/channels") ;;
     ret ((fun i => {| channelId := i; teamId := Some team |})
            <$> findIn (sameDisplayName channelName) channels))
    (fun error => throw (Error ("Failed to find channel: " ++ message error))).

Definition resolveChannelId (accessToken : string)
    (channelIdOrName teamIdOrName : option string) : M E (option channel_ref) :=
  if negb (truthy channelIdOrName) then ret None
  else if negb (truthy teamIdOrName) then ret None
  else if matchesGuid (str channelIdOrName) then
    team <- resolveTeamId accessToken teamIdOrName ;;
    ret (Some {| channelId := str channelIdOrName; teamId := team |})
  else findChannelIdByName accessToken (str channelIdOrName) (str teamIdOrName).

End Channels.

Arguments findChannelIdByName {E} accessToken channelName teamIdOrName s.
Arguments resolveChannelId {E} accessToken channelIdOrName teamIdOrName s.

(** ** The application token and the middleware *)

(** [appTokenCache]: [{ token, expiresAt }]. *)
Record app_token_cache := { app_token : option string; app_expiresAt : Z }.

(** The request as the middleware reads it: [req.method], [req.path] and
    what [getDelegatedToken] reads. *)
Record http_request := { method : string; path : string; tokens : request }.

(** What the middleware does with a request: [req.graphToken = t; next()],
    or [res.status(status).json({ error, message })]. *)
Inductive outcome :=
| Next (graphToken : string)
| Respond (status : nat) (error message : string).

(** The lines the middleware writes to the console. *)
Inductive middleware_msg :=
| MwResolving (method path : string)
| MwNoDelegatedToken
| MwUsingDelegated (path : string)
| MwUsingAppOnly (path : string)
| MwError (msg : string).

Definition delegatedOnlyRoutes : list string :=
  ["/api/discovery"; "/api/messaging"; "/api/meetings"].

Definition appOnlyRoutes : list string :=
  ["/api/teams-provisioning"; "/api/admin"].

Section Application.

Context (E : Env).

(** [axios.post] to the token endpoint with the client credentials: the
    body of the answer, or the error the promise rejects with. *)
Variable post_client_credentials : W E -> (error + token_response) * W E.

(** The process with the module-level [appTokenCache], the number of
    exchanges of client credentials made, and the lines of the
    middleware. *)
Record app_state :=
  { appTokenCache : app_token_cache;
    exchanges : nat;
    middleware_console : list middleware_msg;
    process : state E }.

Definition MA (A : Type) : Type := app_state -> result A * app_state.

Definition retA {A} (a : A) : MA A := fun s => (Ok a, s).

Definition bindA {A B} (m : MA A) (f : A -> MA B) : MA B :=
  fun s => match m s with
           | (Ok a, s') => f a s'
           | (Throw e, s') => (Throw e, s')
           end.

Definition try_catchA {A} (m : MA A) (h : error -> MA A) : MA A :=
  fun s => match m s with
           | (Ok a, s') => (Ok a, s')
           | (Throw e, s') => h e s'
           end.

Notation "x <- m ;; k" := (bindA m (fun x => k))
  (at level 100, m at next level, right associativity).
Notation "m ;;; k" := (bindA m (fun _ => k))
  (at level 100, right associativity).

Definition with_process (p : state E) (s : app_state) : app_state :=
  {| appTokenCache := appTokenCache s; exchanges := exchanges s;
     middleware_console := middleware_console s; process := p |}.

(** A function of tokenManager.js run in the process. *)
Definition in_process {A} (m : M E A) : MA A :=
  fun s => let '(r, p) := m (process s) in (r, with_process p s).

Definition logA (l : middleware_msg) : MA unit :=
  fun s => (Ok tt,
            {| appTokenCache := appTokenCache s; exchanges := exchanges s;
               middleware_console := middleware_console s ++ [l];
               process := process s |}).

Definition get_appTokenCache : MA app_token_cache :=
  fun s => (Ok (appTokenCache s), s).

Definition set_appTokenCache (c : app_token_cache) : MA unit :=
  fun s => (Ok tt,
            {| appTokenCache := c; exchanges := exchanges s;
               middleware_console := middleware_console s; process := process s |}).

Definition axios_post_client_credentials : MA token_response :=
  fun s =>
    let s := {| appTokenCache := appTokenCache s; exchanges := S (exchanges s);
                middleware_console := middleware_console s; process := process s |} in
    match post_client_credentials (world (process s)) with
    | (inr r, w) => (Ok r, with_process (with_world w (process s)) s)
    | (inl e, w) => (Throw e, with_process (with_world w (process s)) s)
    end.

(** [getAppToken]; [Date.now()] is read only when a token is cached. *)
Definition getAppToken : MA string :=
  cache <- get_appTokenCache ;;
  fresh <-
    (if truthy (app_token cache) then
       now <- in_process Date_now ;;
       retA (now <? app_expiresAt cache)
     else retA false) ;;
  if fresh then retA (str (app_token cache))
  else
    response <- axios_post_client_credentials ;;
    cache <- get_appTokenCache ;;
    set_appTokenCache {| app_token := Some (access_token response);
                         app_expiresAt := app_expiresAt cache |} ;;;
    now <- in_process Date_now ;;
    cache <- get_appTokenCache ;;
    set_appTokenCache {| app_token := app_token cache;
                         app_expiresAt := now + (expires_in response - 60) * 1000 |} ;;;
    cache <- get_appTokenCache ;;
    retA (str (app_token cache)).

Definition requiresRoute (routes : list string) (p : string) : bool :=
  existsb (fun route => startsWith route p) routes.

(** [resolveGraphToken]; [next()] is the rest of the handling of the
    request and is taken not to throw. *)
Definition resolveGraphToken (req : http_request) : MA outcome :=
  try_catchA
    (logA (MwResolving (method req) (path req)) ;;;
     let requiresDelegated := requiresRoute delegatedOnlyRoutes (path req) in
     let requiresAppOnly := requiresRoute appOnlyRoutes (path req) in
     if requiresDelegated then
       delegatedToken <- in_process (getDelegatedToken (tokens req)) ;;
       if negb (truthy delegatedToken) then
         logA MwNoDelegatedToken ;;;
         retA (Respond 401 "Delegated user token required"
                 "Please provide access token via Authorization header (Bearer token). Include X-Refresh-Token header or refreshToken in body for auto-refresh capability.")
       else
         logA (MwUsingDelegated (path req)) ;;;
         retA (Next (str delegatedToken))
     else if requiresAppOnly then
       appToken <- getAppToken ;;
       logA (MwUsingAppOnly (path req)) ;;;
       retA (Next appToken)
     else
       delegatedToken <- in_process (getDelegatedToken (tokens req)) ;;
       if truthy delegatedToken then
         logA (MwUsingDelegated (path req)) ;;;
         retA (Next (str delegatedToken))
       else
         appToken <- getAppToken ;;
         logA (MwUsingAppOnly (path req)) ;;;
         retA (Next appToken))
    (fun err =>
       logA (MwError (message err)) ;;;
       if includes "Failed to refresh access token" (message err) then
         retA (Respond 401 "Token refresh failed"
                 "Your refresh token is invalid or expired. Please re-authenticate.")
       else
         retA (Respond 500 "Failed to resolve Graph token" (message err))).

End Application.

Arguments appTokenCache {E} _.
Arguments exchanges {E} _.
Arguments middleware_console {E} _.
Arguments process {E} _.
Arguments getAppToken {E} post_client_credentials s.
Arguments resolveGraphToken {E} post_client_credentials req s.
Arguments in_process {E A} m s.

(** ** A concrete environment

    The clock stands at [now]; the token endpoint answers from a script,
    one entry per call ([None]: the exchange is rejected), and rejects
    every call once the script is used up; every write of the file
    succeeds; the Graph API answers from a table of paths; the payload of
    a token is decoded by a table. *)
Definition scripted (now : Z) (script : list (option token_response))
    (graph : string -> error + response)
    (payloads : string -> option claims) : Env :=
  {| W := nat;
     date_now := fun w => (now, w);
     post_token := fun _ w => (mjoin (script !! w), S w);
     write_file := fun w => (true, w);
     graph_get := fun _ path w => (graph path, w);
     parse_payload := payloads |}.

Definition init (E : Env) (w : W E) (cache : gmap string record) : state E :=
  {| userTokenCache := cache; tokenCacheFile := None; world := w;
     calls := []; console := [] |}.

Definition bearer (token : string) (refresh : option string) : request :=
  {| req_headers := {| authorization := Some ("Bearer " ++ token);
                       x_refresh_token := refresh |};
     req_body := None |}.

Definition no_graph (path : string) : error + response :=
  inl (Error "Request failed with status code 404").

(** A token whose payload segment is [p] decodes to a subject and an
    expiry; any other payload fails to decode. *)
Definition payload_of (p : string) (c : claims) (payload : string) : option claims :=
  if String.eqb payload p then Some c else None.

(** ** Derived descriptions, used to state the properties *)

(** The identity [getUserIdFromToken] computes for a token. *)
Definition userIdOf (E : Env) (token : string) : string :=
  match decodeToken E token with
  | Some decoded => str (js_or (js_or (oid decoded) (sub decoded)) (Some "default-user"))
  | None => "default-user"
  end.

(** Whether [isTokenExpired] reports decoded claims as expired when the
    clock reads [now]. *)
Definition expiredAt (now : Z) (decoded : claims) : bool :=
  match exp decoded with
  | Some e => (e * 1000 <=? now) && (validTime (e * 1000) && validTime now)
  | None => false
  end.

(** The answer of [isTokenExpired] in a world, and the world after it. *)
Definition checkExpiry (E : Env) (token : string) (w : W E) : bool * W E :=
  match decodeToken E token with
  | Some decoded => let '(now, w') := date_now E w in (expiredAt now decoded, w')
  | None => (false, w)
  end.

(** Two states with the same cache, file and trace of calls. *)
Definition quiet {E : Env} (s s' : state E) : Prop :=
  userTokenCache s' = userTokenCache s ∧
  tokenCacheFile s' = tokenCacheFile s ∧
  calls s' = calls s.

(** The record a successful refresh stores. *)
Definition refreshedRecord (refreshToken : string) (resp : token_response) (now : Z) : record :=
  {| accessToken := access_token resp;
     refreshToken := js_or (refresh_token resp) (Some refreshToken);
     expiresAt := now + (expires_in resp - 60) * 1000 |}.

(** The meetings that pass the criteria, [organizerId] being what the
    lookup of the organizer gave. *)
Definition survivors (c : criteria) (organizerId : option string)
    (all : list resource) : list resource :=
  List.filter
    (fun m =>
       (if truthy (title c) then titleMatches (str (title c)) m else true) &&
       (if truthy (organizerEmail c) && truthy organizerId
        then organizedBy (str organizerId) m else true) &&
       (match afterDate c with Some after => startsAfter after m | None => true end))
    all.

(** Hexadecimal digits only, of either case. *)
Fixpoint all_hex (s : string) : bool :=
  match s with
  | EmptyString => true
  | String a s' => is_hex a && all_hex s'
  end.

Definition hex_digits (n : nat) (s : string) : Prop :=
  String.length s = n ∧ all_hex s = true.

(** The canonical shape of an identifier: 32 hexadecimal digits in five
    groups of 8, 4, 4, 4 and 12, with a dash between the groups. *)
Definition canonical_shape (s : string) : Prop :=
  ∃ a b c d e,
    s = a ++ "-" ++ b ++ "-" ++ c ++ "-" ++ d ++ "-" ++ e ∧
    hex_digits 8 a ∧ hex_digits 4 b ∧ hex_digits 4 c ∧ hex_digits 4 d ∧
    hex_digits 12 e.


(** A meeting with a subject and a start time. *)
Definition meeting (i subj : string) (start : Z) : resource :=
  {| id := i; displayName := None; subject := Some subj;
     organizer := None; startDateTime := Some start |}.

(** The state after the answer to the listing of the caller's meetings. *)
Definition after_listing {E : Env} (accessToken : string) (w : W E) (s : state E) : state E :=
  with_world w (record_call (CallGraphGet accessToken "/me/onlineMeetings") s).

(** A record stored after an exchange with the token endpoint: the
    exchange was made with a non-empty refresh token, and the clock was
    read when the answer came. *)
Definition refresh_written (E : Env) (r : record) : Prop :=
  ∃ refresh w resp w1 now w2,
    refresh ≠ "" ∧
    post_token E refresh w = (Some resp, w1) ∧
    date_now E w1 = (now, w2) ∧
    r = refreshedRecord refresh resp now.

(** A record stored for an access token that came with a refresh token
    and is not expired. *)
Definition fresh_written (E : Env) (token : string) (refresh : option string)
    (r : record) : Prop :=
  ∃ w now w2,
    truthy refresh = true ∧
    date_now E w = (now, w2) ∧
    r = {| accessToken := token; refreshToken := refresh;
           expiresAt := now + 55 * 60 * 1000 |}.

(** ** Scenarios

    One user, [u], whose tokens have the payload segment [p]; the clock
    reads [t0]. *)

Definition t0 : Z := 1700000000000.

Definition claims_of_u (e : Z) : claims :=
  {| oid := Some "u"; sub := None; exp := Some e |}.

(** The tokens of [u] expire at [e] seconds, and the token endpoint
    follows [script]. *)
Definition env (e : Z) (script : list (option token_response)) : Env :=
  scripted t0 script no_graph (payload_of "p" (claims_of_u e)).

Definition answer (access : string) : token_response :=
  {| access_token := access; refresh_token := None; expires_in := 3600 |}.

(** A token of [u] that is still valid: it expires 100 seconds after the
    reading of the clock. *)
Definition env_valid : Env := env 1700000100 [Some (answer "A1")].

(** A token of [u] that expired 1000 seconds before the reading of the
    clock. *)
Definition env_expired (script : list (option token_response)) : Env :=
  env 1699999000 script.

(** A token of [u] that is valid for 5000 seconds more. *)
Definition env_lasting (script : list (option token_response)) : Env :=
  env 1700005000 script.

(** The process at its start, with a cache. *)
Definition start_valid (cache : gmap string record) : state env_valid :=
  init env_valid 0%nat cache.

Definition start_expired (script : list (option token_response))
    (cache : gmap string record) : state (env_expired script) :=
  init (env_expired script) 0%nat cache.

Definition start_lasting (script : list (option token_response))
    (cache : gmap string record) : state (env_lasting script) :=
  init (env_lasting script) 0%nat cache.

(** A cached record of [u] that is not stale at [t0]. *)
Definition cached_u : record :=
  {| accessToken := "old"; refreshToken := Some "r0"; expiresAt := 1700001000000 |}.

(** A cached record of [u] that is stale at [t0]. *)
Definition stale_u : record :=
  {| accessToken := "old"; refreshToken := Some "r0"; expiresAt := 1699999000000 |}.

(** The Graph API of a caller with the meetings [l], where no user can
    be found. *)
Definition graph_of_meetings (l : list resource) (path : string) : error + response :=
  if String.eqb path "/me/onlineMeetings" then inr {| value := Some l; resp_id := None |}
  else if startsWith "/users?" path then inr {| value := Some []; resp_id := None |}
  else inl (Error "Request failed with status code 404").

Definition three_meetings : list resource :=
  [meeting "m1" "Daily Sync" 1700000000000; meeting "m2" "Weekly Sync" 1700600000000;
   meeting "m3" "Standup" 1700700000000].

Definition env_meetings : Env :=
  scripted t0 [] (graph_of_meetings three_meetings) (fun _ => None).

Definition start_meetings : state env_meetings := init env_meetings 0%nat ∅.

Definition listing : response := {| value := Some three_meetings; resp_id := None |}.

Definition guid : string := "11111111-2222-3333-4444-555555555555".

(** ** Further descriptions, used to state the properties *)

(** The file holds what the cache holds. *)
Definition in_sync {E : Env} (s : state E) : Prop :=
  tokenCacheFile s = Some (userTokenCache s).

(** The three requests of [findUserId]. *)
Definition mailQuery (emailOrName : string) : string :=
  "/users?$filter=startswith(mail,'" ++ emailOrName ++ "') or mail eq '"
    ++ emailOrName ++ "'".

Definition displayNameQuery (emailOrName : string) : string :=
  "/users?$filter=startswith(displayName,'" ++ emailOrName ++ "')".

Definition directRequest (emailOrName : string) : string := "/users/" ++ emailOrName.

(** The world in which [getAppToken] exchanges the client credentials:
    the clock was read first when a token is cached. *)
Definition world_after_check {E : Env} (a : app_state E) : W E :=
  if truthy (app_token (appTokenCache a))
  then (date_now E (world (process a))).2
  else world (process a).

(** Whether [getAppToken] finds its cached token usable. *)
Definition app_token_fresh {E : Env} (a : app_state E) : bool :=
  truthy (app_token (appTokenCache a)) &&
  ((date_now E (world (process a))).1 <? app_expiresAt (appTokenCache a)).

(** The answer of the middleware to an error. *)
Definition error_response (e : error) : outcome :=
  if includes "Failed to refresh access token" (message e)
  then Respond 401 "Token refresh failed"
         "Your refresh token is invalid or expired. Please re-authenticate."
  else Respond 500 "Failed to resolve Graph token" (message e).

(** The answer of the middleware to a request without delegated token on
    a route that needs one. *)
Definition token_required : outcome :=
  Respond 401 "Delegated user token required"
    "Please provide access token via Authorization header (Bearer token). Include X-Refresh-Token header or refreshToken in body for auto-refresh capability.".

(** [a] with the first line of the middleware written. *)
Definition resolving {E : Env} (req : http_request) (a : app_state E) : app_state E :=
  {| appTokenCache := appTokenCache a; exchanges := exchanges a;
     middleware_console := middleware_console a ++ [MwResolving (method req) (path req)];
     process := process a |}.

(** What the middleware makes of the result of [getDelegatedToken] on a
    route that needs a delegated token. *)
Definition delegated_outcome (r : result (option string)) : outcome :=
  match r with
  | Ok t => if truthy t then Next (str t) else token_required
  | Throw e => error_response e
  end.

(** What the middleware makes of the result of [getAppToken]. *)
Definition app_outcome (r : result string) : outcome :=
  match r with
  | Ok t => Next t
  | Throw e => error_response e
  end.

(** ** More scenarios *)

(** A request without any token. *)
Definition anonymous : request :=
  {| req_headers := {| authorization := None; x_refresh_token := None |};
     req_body := None |}.

(** A cached record of [u] whose expiry is not a valid date. *)
Definition invalid_u : record :=
  {| accessToken := "old"; refreshToken := Some "r0"; expiresAt := 9000000000000000 |}.

(** The process at its start, with an empty cache saved in the file. *)
Definition start_synced : state env_valid := with_file (Some ∅) (start_valid ∅).

(** The token endpoint answering [r] to the exchange of the client
    credentials. *)
Definition app_endpoint (r : error + token_response) (w : nat)
    : (error + token_response) * nat := (r, w).

Definition app_start (c : app_token_cache) : app_state env_valid :=
  {| appTokenCache := c; exchanges := 0; middleware_console := [];
     process := start_valid ∅ |}.

Definition no_app_token : app_token_cache := {| app_token := None; app_expiresAt := 0 |}.

Definition app_token_cached : app_token_cache :=
  {| app_token := Some "APP"; app_expiresAt := 1700003000000 |}.

Definition route (p : string) (r : request) : http_request :=
  {| method := "GET"; path := p; tokens := r |}.

Definition team (i name : string) : resource :=
  {| id := i; displayName := Some name; subject := None;
     organizer := None; startDateTime := None |}.

(** The Graph API of a caller who belongs to two teams, where the
    listing of all teams is refused, and the team [guid] has two
    channels. *)
Definition graph_of_teams (p : string) : error + response :=
  if String.eqb p "/me/joinedTeams" then
    inr {| value := Some [team "t1" "Design"; team "t2" "PROJECT FALCON"];
           resp_id := None |}
  else if String.eqb p ("/teams/" ++ guid ++ "/channels") then
    inr {| value := Some [team "c1" "General"; team "c2" "Releases"];
           resp_id := None |}
  else inl (Error "Request failed with status code 403").

Definition env_teams : Env := scripted t0 [] graph_of_teams (fun _ => None).

Definition start_teams : state env_teams := init env_teams 0%nat ∅.

(** The Graph API where the mail of a user is known. *)
Definition graph_of_users (p : string) : error + response :=
  if startsWith "/users?$filter=startswith(mail," p then
    inr {| value := Some [team "u1" "Ada"]; resp_id := None |}
  else inl (Error "Request failed with status code 404").

Definition env_users : Env := scripted t0 [] graph_of_users (fun _ => None).

Definition start_users : state env_users := init env_users 0%nat ∅.

(** The Graph API that lists the meetings and refuses everything else. *)
Definition graph_listing_only (p : string) : error + response :=
  if String.eqb p "/me/onlineMeetings" then
    inr {| value := Some three_meetings; resp_id := None |}
  else inl (Error "Request failed with status code 403").

Definition env_listing_only : Env := scripted t0 [] graph_listing_only (fun _ => None).

Definition start_listing_only : state env_listing_only := init env_listing_only 0%nat ∅.

(** Two meetings that start at the same time, after an earlier one. *)
Definition tied_meetings : list resource :=
  [meeting "m1" "Daily Sync" 1700000000000; meeting "m2" "Weekly Sync" 1700600000000;
   meeting "m3" "Monthly Sync" 1700600000000].

Definition env_tied : Env := scripted t0 [] (graph_of_meetings tied_meetings) (fun _ => None).

Definition start_tied : state env_tied := init env_tied 0%nat ∅.

Definition env_no_meetings : Env := scripted t0 [] (graph_of_meetings []) (fun _ => None).

Definition start_no_meetings : state env_no_meetings := init env_no_meetings 0%nat ∅.

Definition by_organizer (email : string) : criteria :=
  {| title := None; organizerEmail := Some email; afterDate := None |}.

(** ** The criteria of [findMeetingId] in the words of the specification *)














(** ** Properties *)

Section Properties.

Context {E : Env}.
Implicit Types (s : state E) (req : request).

Ltac use_eqs :=
  repeat match goal with
         | H : ?t = (_, _) |- context [?t] => rewrite H
         | H : ?t = true |- context [?t] => rewrite H
         | H : ?t = false |- context [?t] => rewrite H
         | H : ?t = Some _ |- context [?t] => rewrite H
         | H : ?t = None |- context [?t] => rewrite H
         end.

Ltac unfold_run :=
  unfold lookupCached, cacheOrReturnProvided,
    refreshCached, refreshWithProvided, refreshAccessToken,
    isTokenExpired, getUserIdFromToken, saveTokenCache, clearUserToken,
    axios_post_token, Date_now, cache_set, cache_delete, get_cache,
    bind, ret, throw, try_catch, log, with_file, with_cache,
    with_world, record_call in *.

Ltac run :=
  repeat (simplify_eq/=; unfold_run; simplify_eq/=; use_eqs; try case_match).

Lemma quiet_refl s : quiet s s.
Proof. by unfold quiet. Qed.

Lemma quiet_trans s1 s2 s3 : quiet s1 s2 → quiet s2 s3 → quiet s1 s3.
Proof. unfold quiet. intros (-> & -> & ->) (-> & -> & ->). done. Qed.

Lemma truthy_str v : truthy v = true → v = Some (str v) ∧ str v ≠ "".
Proof.
  destruct v as [x|]; simpl; [|done].
  intros H. split; [done|]. intros ->. done.
Qed.

Lemma truthy_Some x : x ≠ "" → truthy (Some x) = true.
Proof. intros H. simpl. destruct (String.eqb_spec x ""); done. Qed.

Lemma truthy_js_or_r a b : truthy b = true → truthy (js_or a b) = true.
Proof. unfold js_or. destruct (truthy a) eqn:H; auto. Qed.

Lemma truthy_js_or a b : truthy (js_or a b) = truthy a || truthy b.
Proof. unfold js_or. destruct (truthy a) eqn:H; auto. Qed.

Lemma getUserIdFromToken_run token s :
  ∃ s1, getUserIdFromToken token s = (Ok (userIdOf E token), s1) ∧
        quiet s s1 ∧ world s1 = world s.
Proof.
  unfold getUserIdFromToken, userIdOf.
  destruct (decodeToken E token); run; eexists; (split; [done|]); by unfold quiet.
Qed.

Lemma isTokenExpired_run token s :
  ∃ s1, isTokenExpired token s = (Ok (checkExpiry E token (world s)).1, s1) ∧
        quiet s s1 ∧ world s1 = (checkExpiry E token (world s)).2.
Proof.
  unfold isTokenExpired, checkExpiry, expiredAt.
  destruct (decodeToken E token) as [d|]; run;
    try (eexists; (split; [reflexivity|]); by unfold quiet).
Qed.

(** The prelude of [getDelegatedToken]: identity, expiry check, and the
    choice between the immediate refresh and the cache lookup. *)
Lemma getDelegatedToken_run req s token :
  requestAccessToken req = Some token → token ≠ "" →
  ∃ s1, quiet s s1 ∧ world s1 = (checkExpiry E token (world s)).2 ∧
        getDelegatedToken req s =
          if (checkExpiry E token (world s)).1 && truthy (requestRefreshToken req)
          then refreshWithProvided (userIdOf E token)
                 (str (requestRefreshToken req)) s1
          else lookupCached (userIdOf E token) token (requestRefreshToken req)
                 (checkExpiry E token (world s)).1 s1.
Proof.
  intros Hacc Htok.
  unfold getDelegatedToken. rewrite Hacc, (truthy_Some _ Htok).
  cbn [negb]. change (str (Some token)) with token.
  unfold bind at 1.
  destruct (getUserIdFromToken_run token s) as (s1 & -> & Hq1 & Hw1).
  unfold bind at 1, log at 1.
  set (s2 := {| userTokenCache := userTokenCache s1 |}).
  unfold bind at 1.
  destruct (isTokenExpired_run token s2) as (s3 & -> & Hq3 & Hw3).
  exists s3. subst s2. simpl in *. rewrite Hw1 in Hw3.
  rewrite Hw1. split; [|split; [done|by destruct (_ && _)]].
  eapply quiet_trans; [exact Hq1|].
  destruct Hq3 as (? & ? & ?). unfold quiet. simpl in *. done.
Qed.

Lemma getDelegatedToken_none req s :
  truthy (requestAccessToken req) = false →
  ∃ s', getDelegatedToken req s = (Ok None, s') ∧ quiet s s' ∧ world s' = world s.
Proof.
  intros H. unfold getDelegatedToken. rewrite H. simpl.
  eexists. split; [reflexivity|]. by unfold quiet.
Qed.

(** What [saveTokenCache] leaves in the file. *)
Lemma saveTokenCache_run cache s :
  ∃ s', saveTokenCache cache s = (Ok tt, s') ∧
        userTokenCache s' = userTokenCache s ∧ calls s' = calls s ∧
        tokenCacheFile s' =
          (if serializable cache && (write_file E (world s)).1
           then Some cache else tokenCacheFile s).
Proof.
  unfold saveTokenCache. destruct (serializable cache); simpl.
  - destruct (write_file E (world s)) as [[] w]; simpl; eexists; done.
  - eexists; done.
Qed.

Lemma refreshAccessToken_ok refresh s resp w1 :
  post_token E refresh (world s) = (Some resp, w1) →
  refreshAccessToken refresh s =
    (Ok {| r_accessToken := access_token resp;
           r_refreshToken := js_or (refresh_token resp) (Some refresh);
           r_expiresIn := expires_in resp |},
     with_world w1 (record_call (CallTokenEndpoint refresh) s)).
Proof. intros H. run. done. Qed.

Lemma refreshAccessToken_fail refresh s w1 :
  post_token E refresh (world s) = (None, w1) →
  ∃ s', refreshAccessToken refresh s =
          (Throw (Error "Failed to refresh access token"), s') ∧
        userTokenCache s' = userTokenCache s ∧
        tokenCacheFile s' = tokenCacheFile s ∧
        calls s' = (calls s ++ [CallTokenEndpoint refresh])%list ∧
        world s' = w1.
Proof. intros H. run. eexists. done. Qed.

(** The immediate refresh, when the exchange succeeds. *)
Lemma refreshWithProvided_ok userId refresh s resp w1 now w2 :
  post_token E refresh (world s) = (Some resp, w1) →
  date_now E w1 = (now, w2) →
  let cache' := <[userId := refreshedRecord refresh resp now]> (userTokenCache s) in
  ∃ s', refreshWithProvided userId refresh s = (Ok (Some (access_token resp)), s') ∧
        userTokenCache s' = cache' ∧
        calls s' = (calls s ++ [CallTokenEndpoint refresh])%list ∧
        tokenCacheFile s' =
          (if serializable cache' && (write_file E w2).1
           then Some cache' else tokenCacheFile s).
Proof.
  intros H1 H2 cache'. subst cache'. unfold refreshedRecord. run; eexists; done.
Qed.

(** The immediate refresh, when the exchange is rejected: nothing but the
    traces changes. *)
Lemma refreshWithProvided_fail userId refresh s w1 :
  post_token E refresh (world s) = (None, w1) →
  ∃ s', refreshWithProvided userId refresh s =
          (Throw (Error "Failed to refresh access token"), s') ∧
        userTokenCache s' = userTokenCache s ∧
        tokenCacheFile s' = tokenCacheFile s ∧
        calls s' = (calls s ++ [CallTokenEndpoint refresh])%list.
Proof. intros H. run. eexists. done. Qed.

Lemma checkExpiry_decoded token decoded w now w' :
  decodeToken E token = Some decoded → date_now E w = (now, w') →
  checkExpiry E token w = (expiredAt now decoded, w').
Proof. intros H1 H2. unfold checkExpiry. by rewrite H1, H2. Qed.

Lemma checkExpiry_malformed token w :
  decodeToken E token = None → checkExpiry E token w = (false, w).
Proof. intros H. unfold checkExpiry. by rewrite H. Qed.

(** What follows the cache lookup when no refresh token came with the
    request: the provided access token, and nothing else happens. *)
Lemma cacheOrReturnProvided_passthrough userId token refresh expired s :
  truthy refresh = false →
  ∃ s', cacheOrReturnProvided userId token refresh expired s = (Ok (Some token), s') ∧
        quiet s s' ∧ world s' = world s.
Proof.
  intros H. unfold cacheOrReturnProvided. rewrite H. run.
  eexists. split; [done|]. by unfold quiet.
Qed.

(** What follows the cache lookup when a refresh token came with a token
    that is not expired: the pair is cached for 55 minutes. *)
Lemma cacheOrReturnProvided_fresh userId token refresh s now w :
  truthy refresh = true → date_now E (world s) = (now, w) →
  let cache' := <[userId := {| accessToken := token; refreshToken := refresh;
                               expiresAt := now + 55 * 60 * 1000 |}]>
                  (userTokenCache s) in
  ∃ s', cacheOrReturnProvided userId token refresh false s = (Ok (Some token), s') ∧
        userTokenCache s' = cache' ∧ calls s' = calls s ∧
        tokenCacheFile s' =
          (if serializable cache' && (write_file E w).1
           then Some cache' else tokenCacheFile s) ∧
        world s' = (if serializable cache' then (write_file E w).2 else w).
Proof.
  intros H Hnow cache'. subst cache'. unfold cacheOrReturnProvided. rewrite H.
  run; eexists; done.
Qed.

(** C1 (as amended).  When the expiry embedded in the supplied access
    token is at or before the reading of the clock (both being valid
    dates) and the request carries a refresh token, [getDelegatedToken]
    calls the token endpoint once, with that refresh token.  If the
    exchange succeeds, the new record is set in [userTokenCache] under the
    identity of the supplied token, the cache is handed to
    [saveTokenCache] (which rewrites the file when every expiry in the
    cache is a valid date and the write succeeds), and the new access
    token is returned.  If the exchange is rejected, the error is thrown
    to the caller. *)
Theorem getDelegatedToken_expired_refreshes req s token refresh decoded e now w :
  requestAccessToken req = Some token → token ≠ "" →
  requestRefreshToken req = Some refresh → refresh ≠ "" →
  decodeToken E token = Some decoded → exp decoded = Some e →
  date_now E (world s) = (now, w) →
  e * 1000 ≤ now → validTime (e * 1000) = true → validTime now = true →
  (∀ resp w1 t w2,
     post_token E refresh w = (Some resp, w1) → date_now E w1 = (t, w2) →
     let cache' := <[userIdOf E token := refreshedRecord refresh resp t]>
                     (userTokenCache s) in
     ∃ s', getDelegatedToken req s = (Ok (Some (access_token resp)), s') ∧
           userTokenCache s' = cache' ∧
           calls s' = (calls s ++ [CallTokenEndpoint refresh])%list ∧
           tokenCacheFile s' =
             (if serializable cache' && (write_file E w2).1
              then Some cache' else tokenCacheFile s)) ∧
  (∀ w1,
     post_token E refresh w = (None, w1) →
     ∃ s', getDelegatedToken req s =
             (Throw (Error "Failed to refresh access token"), s') ∧
           calls s' = (calls s ++ [CallTokenEndpoint refresh])%list).
Proof.
  intros Hacc Htok Href Hne Hdec Hexp Hnow Hle Hv1 Hv2.
  destruct (getDelegatedToken_run req s token Hacc Htok)
    as (s1 & (Hc & Hf & Hk) & Hw & Hrun).
  assert (expiredAt now decoded = true) as Hx.
  { unfold expiredAt. rewrite Hexp, Hv1, Hv2. simpl.
    rewrite andb_true_r. by apply Z.leb_le. }
  rewrite Href in Hrun. change (str (Some refresh)) with refresh in Hrun.
  rewrite (checkExpiry_decoded _ _ _ _ _ Hdec Hnow) in Hrun, Hw.
  cbn [fst snd] in Hrun, Hw.
  rewrite Hx, (truthy_Some _ Hne) in Hrun. cbn [andb] in Hrun.
  rewrite Hrun. split.
  - intros resp w1 t w2 Hpost Ht cache'. subst cache'.
    rewrite <- Hw in Hpost.
    destruct (refreshWithProvided_ok (userIdOf E token) refresh s1 resp w1 t w2 Hpost Ht)
      as (s' & -> & H1 & H2 & H3).
    exists s'. rewrite H1, H2, H3, Hc, Hf, Hk. done.
  - intros w1 Hpost. rewrite <- Hw in Hpost.
    destruct (refreshWithProvided_fail (userIdOf E token) refresh s1 w1 Hpost)
      as (s' & -> & H1 & H2 & H3).
    exists s'. rewrite H3, Hk. done.
Qed.

(** C4.  A request with an access token whose embedded expiry is in the
    past, with no refresh token, and whose identity has no entry in
    [userTokenCache], gets its access token back unchanged; the token
    endpoint is not called and the cache and the file stay as they
    were. *)
Theorem getDelegatedToken_passthrough req s token decoded e now w :
  requestAccessToken req = Some token → token ≠ "" →
  truthy (requestRefreshToken req) = false →
  decodeToken E token = Some decoded → exp decoded = Some e →
  date_now E (world s) = (now, w) → e * 1000 < now →
  userTokenCache s !! userIdOf E token = None →
  ∃ s', getDelegatedToken req s = (Ok (Some token), s') ∧
        calls s' = calls s ∧
        userTokenCache s' = userTokenCache s ∧
        tokenCacheFile s' = tokenCacheFile s.
Proof.
  intros Hacc Htok Href Hdec Hexp Hnow Hlt Hnone.
  destruct (getDelegatedToken_run req s token Hacc Htok)
    as (s1 & (Hc & Hf & Hk) & Hw & Hrun).
  rewrite Href, andb_false_r in Hrun.
  rewrite Hrun. unfold lookupCached, bind at 1, get_cache.
  rewrite Hc, Hnone.
  destruct (cacheOrReturnProvided_passthrough (userIdOf E token) token
              (requestRefreshToken req) (checkExpiry E token (world s)).1 s1 Href)
    as (s' & -> & (Hc' & Hf' & Hk') & _).
  exists s'. rewrite Hc', Hf', Hk'. done.
Qed.

Lemma userIdOf_malformed token :
  decodeToken E token = None → userIdOf E token = "default-user".
Proof. intros H. unfold userIdOf. by rewrite H. Qed.

Lemma lookupCached_absent userId token refresh expired s :
  userTokenCache s !! userId = None →
  lookupCached userId token refresh expired s =
    cacheOrReturnProvided userId token refresh expired s.
Proof. intros H. unfold lookupCached, bind at 1, get_cache. by rewrite H. Qed.

(** The console never shows the line of the immediate refresh when the
    token cannot be decoded. *)
Lemma malformed_console req s token :
  decodeToken E token = None →
  requestAccessToken req = Some token → token ≠ "" →
  ∃ l, console (getDelegatedToken req s).2 = (console s ++ l)%list ∧
       ¬ In LogProvidedExpiredRefreshing l.
Proof.
  intros Hdec Hacc Htok.
  unfold getDelegatedToken. rewrite Hacc, (truthy_Some _ Htok).
  cbn [negb]. change (str (Some token)) with token.
  unfold getUserIdFromToken, isTokenExpired. rewrite Hdec.
  run.
  all: eexists; split; [rewrite <- ?app_assoc; reflexivity|].
  all: simpl; intuition discriminate.
Qed.

(** C8.  For a token whose payload cannot be decoded, [isTokenExpired]
    answers [false].  So [getDelegatedToken] goes on to the cache lookup
    under the identity [default-user] with the token taken as not
    expired, never writing the line of the immediate refresh; and when
    that identity has no cached record, the token is returned as it came,
    with no call to the token endpoint, after being cached for 55 minutes
    if a refresh token came with it. *)
Theorem malformed_token_not_expired token :
  decodeToken E token = None →
  (∀ s, ∃ s', isTokenExpired token s = (Ok false, s') ∧
              quiet s s' ∧ world s' = world s) ∧
  (∀ req s,
     requestAccessToken req = Some token → token ≠ "" →
     (∃ s1, quiet s s1 ∧ world s1 = world s ∧
            getDelegatedToken req s =
              lookupCached "default-user" token (requestRefreshToken req) false s1) ∧
     (∃ l, console (getDelegatedToken req s).2 = (console s ++ l)%list ∧
           ¬ In LogProvidedExpiredRefreshing l) ∧
     (userTokenCache s !! "default-user" = None →
      ∃ s', getDelegatedToken req s = (Ok (Some token), s') ∧
            calls s' = calls s ∧
            userTokenCache s' =
              if truthy (requestRefreshToken req)
              then <["default-user" :=
                       {| accessToken := token;
                          refreshToken := requestRefreshToken req;
                          expiresAt := (date_now E (world s)).1 + 55 * 60 * 1000 |}]>
                     (userTokenCache s)
              else userTokenCache s)).
Proof.
  intros Hdec. split.
  - intros s. destruct (isTokenExpired_run token s) as (s' & Hrun & Hq & Hw).
    rewrite (checkExpiry_malformed _ _ Hdec) in Hrun, Hw. eauto.
  - intros req s Hacc Htok.
    destruct (getDelegatedToken_run req s token Hacc Htok)
      as (s1 & Hq & Hw & Hrun).
    rewrite (checkExpiry_malformed _ _ Hdec) in Hrun, Hw.
    rewrite (userIdOf_malformed _ Hdec) in Hrun.
    cbn [fst snd andb] in Hrun, Hw.
    split; [eauto|]. split; [by apply (malformed_console req s token)|].
    intros Hnone. destruct Hq as (Hc & Hf & Hk).
    rewrite Hrun, lookupCached_absent by (by rewrite Hc).
    destruct (truthy (requestRefreshToken req)) eqn:Href.
    + destruct (date_now E (world s)) as [now w] eqn:Hnow.
      rewrite <- Hw in Hnow.
      destruct (cacheOrReturnProvided_fresh "default-user" token
                  (requestRefreshToken req) s1 now w Href Hnow)
        as (s' & -> & H1 & H2 & _).
      exists s'. rewrite H1, H2, Hc, Hk. done.
    + destruct (cacheOrReturnProvided_passthrough "default-user" token
                  (requestRefreshToken req) false s1 Href)
        as (s' & -> & (Hc' & Hf' & Hk') & _).
      exists s'. rewrite Hc', Hk', Hc, Hk. done.
Qed.

Lemma refreshed_is_written refresh w resp w1 now w2 :
  refresh ≠ "" →
  post_token E refresh w = (Some resp, w1) → date_now E w1 = (now, w2) →
  refresh_written E
    {| accessToken := access_token resp;
       refreshToken := js_or (refresh_token resp) (Some refresh);
       expiresAt := now + (expires_in resp - 60) * 1000 |}.
Proof. intros. unfold refresh_written. by eexists _, _, _, _, _, _. Qed.

Ltac written :=
  match goal with
  | H : <[?i := _]> _ !! ?k = Some _ |- _ =>
      destruct (decide (i = k));
      [ subst; rewrite lookup_insert_eq in H; simplify_eq
      | rewrite lookup_insert_ne in H by done ]
  | H : delete ?i _ !! ?k = Some _ |- _ =>
      apply lookup_delete_Some in H; destruct H as [_ H]
  | _ => idtac
  end.

Lemma refreshWithProvided_writes userId refresh s k r :
  refresh ≠ "" →
  userTokenCache (refreshWithProvided userId refresh s).2 !! k = Some r →
  userTokenCache s !! k = Some r ∨ refresh_written E r.
Proof.
  intros Hne H. run; written; eauto using refreshed_is_written.
Qed.

Lemma refreshCached_writes userId refresh s k r :
  refresh ≠ "" →
  userTokenCache (refreshCached userId refresh s).2 !! k = Some r →
  userTokenCache s !! k = Some r ∨ refresh_written E r.
Proof.
  intros Hne H. run; written; eauto using refreshed_is_written.
Qed.

Lemma cacheOrReturnProvided_writes userId token refresh expired s k r :
  userTokenCache (cacheOrReturnProvided userId token refresh expired s).2 !! k = Some r →
  userTokenCache s !! k = Some r ∨ refresh_written E r ∨
  fresh_written E token refresh r.
Proof.
  intros H. unfold cacheOrReturnProvided in H.
  destruct (truthy refresh) eqn:Href; [|run; eauto].
  destruct (truthy_str _ Href) as [_ Hne].
  destruct expired; cbn [negb] in H.
  - run; written; eauto using refreshed_is_written.
  - run; written; eauto.
    all: right; right; by eexists _, _, _.
Qed.

Lemma lookupCached_writes userId token refresh expired s k r :
  userTokenCache (lookupCached userId token refresh expired s).2 !! k = Some r →
  userTokenCache s !! k = Some r ∨ refresh_written E r ∨
  fresh_written E token refresh r.
Proof.
  intros H. unfold lookupCached, bind at 1, get_cache in H.
  destruct (userTokenCache s !! userId) as [cachedData|] eqn:Hc;
    [|by apply cacheOrReturnProvided_writes in H].
  unfold bind at 1 in H.
  destruct (validTime (expiresAt cachedData)); [|run; eauto].
  unfold log at 1, bind at 1, Date_now at 1 in H. cbn [world] in H.
  destruct (date_now E (world s)) as [now w].
  destruct (now <? expiresAt cachedData); [run; eauto|].
  unfold bind at 1, log at 1 in H.
  destruct (truthy (js_or refresh (refreshToken cachedData))) eqn:Htr.
  - destruct (truthy_str _ Htr) as [_ Hne].
    apply refreshCached_writes in H; [|done]. destruct H; eauto.
  - apply cacheOrReturnProvided_writes in H. done.
Qed.

(** Every record of the cache after [getDelegatedToken] was there
    before, or was stored from a successful exchange, or is the pair of
    the request cached for 55 minutes. *)
Lemma getDelegatedToken_writes req s k r :
  userTokenCache (getDelegatedToken req s).2 !! k = Some r →
  userTokenCache s !! k = Some r ∨ refresh_written E r ∨
  ∃ token, requestAccessToken req = Some token ∧
           fresh_written E token (requestRefreshToken req) r.
Proof.
  intros H.
  destruct (truthy (requestAccessToken req)) eqn:Hacc.
  - destruct (truthy_str _ Hacc) as [Hsome Hne].
    destruct (getDelegatedToken_run req s _ Hsome Hne) as (s1 & (Hc & _) & _ & Hrun).
    rewrite Hrun in H. rewrite <- Hc.
    destruct (_ && _) eqn:Hb.
    + apply andb_true_iff in Hb as [_ Href].
      destruct (truthy_str _ Href) as [_ Hne'].
      apply refreshWithProvided_writes in H; [|done]. destruct H; eauto.
    + apply lookupCached_writes in H. destruct H as [?|[?|?]]; eauto.
  - destruct (getDelegatedToken_none req s Hacc) as (s' & Hrun & (Hc & _) & _).
    rewrite Hrun in H. simpl in H. rewrite Hc in H. eauto.
Qed.

(** C2 (as amended).  A record of the cache after [getDelegatedToken]
    was there before the call, or holds the access token of a successful
    exchange and expires 60 seconds before the end of the lifetime the
    exchange granted, counted from the reading of the clock that follows
    the answer, or holds the access token of the request and expires 55
    minutes after a reading of the clock, whatever expiry that token
    embeds. *)
Theorem stored_expiry req s k r :
  userTokenCache (getDelegatedToken req s).2 !! k = Some r →
  userTokenCache s !! k = Some r ∨
  (∃ refresh w resp w1 now w2,
     post_token E refresh w = (Some resp, w1) ∧ date_now E w1 = (now, w2) ∧
     accessToken r = access_token resp ∧
     expiresAt r = now + expires_in resp * 1000 - 60 * 1000) ∨
  (∃ token w now w2,
     requestAccessToken req = Some token ∧ date_now E w = (now, w2) ∧
     accessToken r = token ∧
     expiresAt r = now + 55 * 60 * 1000).
Proof.
  intros H. apply getDelegatedToken_writes in H.
  destruct H as [H|[H|H]]; [by left| |].
  - right; left. destruct H as (refresh & w & resp & w1 & now & w2 & _ & H1 & H2 & ->).
    exists refresh, w, resp, w1, now, w2. simpl. repeat split; try done. lia.
  - right; right. destruct H as (token & Hacc & w & now & w2 & _ & Hnow & ->).
    exists token, w, now, w2. done.
Qed.

Lemma clearUserToken_writes token s k r :
  userTokenCache (clearUserToken token s).2 !! k = Some r →
  userTokenCache s !! k = Some r.
Proof.
  unfold clearUserToken, bind at 1.
  destruct (getUserIdFromToken_run token s) as (s1 & -> & (Hc & _) & _).
  intros H. rewrite <- Hc. run; written; done.
Qed.

(** C10.  [refreshAccessToken], called with a non-empty refresh token,
    returns a non-empty refresh token: the one of the answer, or the one
    it was called with when the answer has none.  Every record that
    [getDelegatedToken] adds to the cache has a non-empty refresh token,
    and [clearUserToken] adds none. *)
Theorem stored_refresh_token_nonempty :
  (∀ refresh s resp w1,
     refresh ≠ "" → post_token E refresh (world s) = (Some resp, w1) →
     ∃ r s', refreshAccessToken refresh s = (Ok r, s') ∧
             truthy (r_refreshToken r) = true ∧
             (truthy (refresh_token resp) = false → r_refreshToken r = Some refresh)) ∧
  (∀ req s k r,
     userTokenCache (getDelegatedToken req s).2 !! k = Some r →
     userTokenCache s !! k = Some r ∨ truthy (refreshToken r) = true) ∧
  (∀ token s k r,
     userTokenCache (clearUserToken token s).2 !! k = Some r →
     userTokenCache s !! k = Some r).
Proof.
  split; [|split].
  - intros refresh s resp w1 Hne Hpost.
    rewrite (refreshAccessToken_ok _ _ _ _ Hpost). eexists _, _.
    split; [done|]. simpl. split.
    + apply truthy_js_or_r. by apply truthy_Some.
    + intros Hno. unfold js_or. by rewrite Hno.
  - intros req s k r H. apply getDelegatedToken_writes in H.
    destruct H as [H|[H|H]]; [by left| |]; right.
    + destruct H as (refresh & w & resp & w1 & now & w2 & Hne & _ & _ & ->).
      simpl. apply truthy_js_or_r. by apply truthy_Some.
    + destruct H as (token & _ & w & now & w2 & Href & _ & ->). done.
  - apply clearUserToken_writes.
Qed.

(** The refresh of an expired cached record, when the exchange is
    rejected: the entry of the identity is deleted before the error is
    thrown. *)
Lemma refreshCached_fail userId refresh s w1 :
  post_token E refresh (world s) = (None, w1) →
  ∃ s', refreshCached userId refresh s =
          (Throw (Error "Failed to refresh access token"), s') ∧
        userTokenCache s' = delete userId (userTokenCache s) ∧
        calls s' = (calls s ++ [CallTokenEndpoint refresh])%list ∧
        tokenCacheFile s' =
          (if serializable (delete userId (userTokenCache s)) && (write_file E w1).1
           then Some (delete userId (userTokenCache s)) else tokenCacheFile s).
Proof. intros H. run; eexists; done. Qed.

(** C3, on the immediate refresh.  When the supplied access token is
    expired, a refresh token comes with it, and the exchange is rejected,
    [getDelegatedToken] throws and leaves the cached record of the
    identity in [userTokenCache] and the file as it was: the entry is not
    evicted on this path. *)
Theorem immediate_refresh_failure_keeps_entry
    req s token refresh decoded e now w w1 cached :
  requestAccessToken req = Some token → token ≠ "" →
  requestRefreshToken req = Some refresh → refresh ≠ "" →
  decodeToken E token = Some decoded → exp decoded = Some e →
  date_now E (world s) = (now, w) →
  e * 1000 ≤ now → validTime (e * 1000) = true → validTime now = true →
  post_token E refresh w = (None, w1) →
  userTokenCache s !! userIdOf E token = Some cached →
  ∃ s', getDelegatedToken req s =
          (Throw (Error "Failed to refresh access token"), s') ∧
        userTokenCache s' !! userIdOf E token = Some cached ∧
        tokenCacheFile s' = tokenCacheFile s.
Proof.
  intros Hacc Htok Href Hne Hdec Hexp Hnow Hle Hv1 Hv2 Hpost Hcached.
  destruct (getDelegatedToken_run req s token Hacc Htok)
    as (s1 & (Hc & Hf & Hk) & Hw & Hrun).
  assert (expiredAt now decoded = true) as Hx.
  { unfold expiredAt. rewrite Hexp, Hv1, Hv2. simpl.
    rewrite andb_true_r. by apply Z.leb_le. }
  rewrite Href in Hrun. change (str (Some refresh)) with refresh in Hrun.
  rewrite (checkExpiry_decoded _ _ _ _ _ Hdec Hnow) in Hrun, Hw.
  cbn [fst snd] in Hrun, Hw.
  rewrite Hx, (truthy_Some _ Hne) in Hrun. cbn [andb] in Hrun.
  rewrite <- Hw in Hpost.
  destruct (refreshWithProvided_fail (userIdOf E token) refresh s1 w1 Hpost)
    as (s' & Hr & H1 & H2 & H3).
  exists s'. rewrite Hrun, Hr, H1, H2, Hc, Hf. done.
Qed.

(** *** Two calls with no time between them *)

Section Twice.

Variable now : Z.
Hypothesis clock : ∀ w, (date_now E w).1 = now.

Lemma clock_reading w t w' : date_now E w = (t, w') → t = now.
Proof. intros H. specialize (clock w). rewrite H in clock. done. Qed.

Lemma checkExpiry_clock token w :
  (checkExpiry E token w).1 =
    match decodeToken E token with
    | Some decoded => expiredAt now decoded
    | None => false
    end.
Proof.
  unfold checkExpiry. destruct (decodeToken E token); [|done].
  destruct (date_now E w) as [t w'] eqn:H. apply clock_reading in H. by subst.
Qed.

(** A cached record that is not stale is returned. *)
Lemma lookupCached_hit userId token refresh expired s cachedData :
  userTokenCache s !! userId = Some cachedData →
  validTime (expiresAt cachedData) = true →
  now < expiresAt cachedData →
  (lookupCached userId token refresh expired s).1 = Ok (Some (accessToken cachedData)).
Proof.
  intros Hc Hv Hlt. unfold lookupCached, bind at 1, get_cache. rewrite Hc.
  unfold bind at 1. rewrite Hv. unfold log at 1, bind at 1, Date_now. cbn [world].
  destruct (date_now E (world s)) as [t w] eqn:H. apply clock_reading in H. subst t.
  apply Z.ltb_lt in Hlt. rewrite Hlt. done.
Qed.

(** Without any refresh token, neither in the request nor in a stale
    cached record, the provided token is returned. *)
Lemma lookupCached_no_refresh userId token refresh expired s :
  truthy refresh = false →
  (userTokenCache s !! userId = None ∨
   ∃ cachedData, userTokenCache s !! userId = Some cachedData ∧
                 validTime (expiresAt cachedData) = true ∧
                 expiresAt cachedData ≤ now ∧
                 truthy (refreshToken cachedData) = false) →
  (lookupCached userId token refresh expired s).1 = Ok (Some token).
Proof.
  intros Href [Hc|(cachedData & Hc & Hv & Hle & Hno)].
  - rewrite lookupCached_absent by done.
    by destruct (cacheOrReturnProvided_passthrough userId token refresh expired s Href)
      as (s' & -> & _).
  - unfold lookupCached, bind at 1, get_cache. rewrite Hc.
    unfold bind at 1. rewrite Hv. unfold log at 1, bind at 1, Date_now. cbn [world].
    destruct (date_now E (world s)) as [t w] eqn:H. apply clock_reading in H. subst t.
    apply Z.ltb_ge in Hle. rewrite Hle.
    unfold bind at 1, log at 1. rewrite truthy_js_or, Href, Hno. cbn [orb].
    match goal with
    | |- context [cacheOrReturnProvided _ _ _ _ ?s0] =>
        by destruct (cacheOrReturnProvided_passthrough userId token refresh expired s0 Href)
          as (s' & -> & _)
    end.
Qed.

Hypothesis in_range : validTime (now + 55 * 60 * 1000) = true.
Hypothesis lifetime : ∀ refresh w resp w1,
  post_token E refresh w = (Some resp, w1) →
  60 < expires_in resp ∧ validTime (now + (expires_in resp - 60) * 1000) = true.

(** After a call of [lookupCached] that returned, the cache holds a
    record that is not stale with the token returned, or no refresh token
    is at hand and the provided token was returned. *)
Lemma lookupCached_returned userId token refresh expired s r1 s1 :
  expired && truthy refresh = false →
  lookupCached userId token refresh expired s = (Ok r1, s1) →
  (∃ cachedData, userTokenCache s1 !! userId = Some cachedData ∧
                 validTime (expiresAt cachedData) = true ∧
                 now < expiresAt cachedData ∧
                 r1 = Some (accessToken cachedData)) ∨
  (r1 = Some token ∧ truthy refresh = false ∧
   (userTokenCache s1 !! userId = None ∨
    ∃ cachedData, userTokenCache s1 !! userId = Some cachedData ∧
                  validTime (expiresAt cachedData) = true ∧
                  expiresAt cachedData ≤ now ∧
                  truthy (refreshToken cachedData) = false)).
Proof.
  intros Hb H. unfold lookupCached, bind at 1, get_cache in H.
  destruct (userTokenCache s !! userId) as [cachedData|] eqn:Hc.
  - unfold bind at 1 in H.
    destruct (validTime (expiresAt cachedData)) eqn:Hv; [|run].
    unfold log at 1, bind at 1, Date_now at 1 in H. cbn [world] in H.
    destruct (date_now E (world s)) as [t w] eqn:Ht. apply clock_reading in Ht. subst t.
    destruct (now <? expiresAt cachedData) eqn:Hlt.
    { left. exists cachedData. apply Z.ltb_lt in Hlt. run. done. }
    apply Z.ltb_ge in Hlt.
    unfold bind at 1, log at 1 in H.
    destruct (truthy (js_or refresh (refreshToken cachedData))) eqn:Htr.
    + left. unfold refreshCached, try_catch in H.
      unfold bind at 1 in H.
      match type of H with
      | context [refreshAccessToken ?r ?s0] =>
          destruct (post_token E r (world s0)) as [[resp|] w1] eqn:Hpost;
          [ rewrite (refreshAccessToken_ok _ _ _ _ Hpost) in H
          | destruct (refreshAccessToken_fail _ _ _ Hpost) as (s' & Hf & _);
            rewrite Hf in H; run ]
      end.
      destruct (lifetime _ _ _ _ Hpost) as [Hlife Hvalid].
      unfold bind at 1, Date_now at 1 in H. cbn [world with_world] in H.
      destruct (date_now E w1) as [t w2] eqn:Ht. apply clock_reading in Ht. subst t.
      run.
      all: eexists; rewrite lookup_insert_eq; split; [done|]; simpl.
      all: split; [done|]; split; [lia|done].
    + rewrite truthy_js_or in Htr. apply orb_false_iff in Htr as [Href Hno].
      right.
      match type of H with
      | cacheOrReturnProvided _ _ _ _ ?s0 = _ =>
          destruct (cacheOrReturnProvided_passthrough userId token refresh expired s0 Href)
            as (s' & Hr & (Hc' & _) & _)
      end.
      rewrite Hr in H. simplify_eq. split; [done|]. split; [done|].
      right. exists cachedData. rewrite Hc'. simpl. done.
  - destruct (truthy refresh) eqn:Href.
    + rewrite andb_true_r in Hb. subst expired. left.
      destruct (date_now E (world s)) as [t w] eqn:Ht.
      pose proof (clock_reading _ _ _ Ht). subst t.
      destruct (cacheOrReturnProvided_fresh userId token refresh s now w Href Ht)
        as (s' & Hr & Hc' & _).
      rewrite Hr in H. simplify_eq. eexists. rewrite Hc', lookup_insert_eq.
      split; [done|]. simpl. split; [done|]. split; [lia|done].
    + right.
      destruct (cacheOrReturnProvided_passthrough userId token refresh expired s Href)
        as (s' & Hr & (Hc' & _) & _).
      rewrite Hr in H. simplify_eq. rewrite Hc'. eauto.
Qed.

(** C5 (as amended).  With the clock standing still, when the request
    does not both carry an expired access token and a refresh token,
    every successful exchange grants a lifetime of more than 60 seconds
    (and the expiries stored are valid dates), a call of
    [getDelegatedToken] that returns is followed by a call that returns
    the same access token. *)
Theorem getDelegatedToken_twice req s r1 s1 :
  (∀ token decoded,
     requestAccessToken req = Some token → decodeToken E token = Some decoded →
     expiredAt now decoded = true → truthy (requestRefreshToken req) = false) →
  getDelegatedToken req s = (Ok r1, s1) →
  (getDelegatedToken req s1).1 = Ok r1.
Proof.
  intros Hnot H1.
  destruct (truthy (requestAccessToken req)) eqn:Hacc.
  - destruct (truthy_str _ Hacc) as [Hsome Hne].
    set (token := str (requestAccessToken req)) in *.
    destruct (getDelegatedToken_run req s token Hsome Hne) as (sa & _ & _ & Ha).
    destruct (getDelegatedToken_run req s1 token Hsome Hne) as (sb & (Hcb & _) & _ & Hb).
    rewrite checkExpiry_clock in Ha. rewrite checkExpiry_clock in Hb.
    set (expired := match decodeToken E token with
                    | Some decoded => expiredAt now decoded
                    | None => false
                    end) in *.
    assert (expired && truthy (requestRefreshToken req) = false) as Hx.
    { subst expired. destruct (decodeToken E token) as [decoded|] eqn:Hdec; [|done].
      destruct (expiredAt now decoded) eqn:He; [|done].
      by rewrite (Hnot token decoded Hsome Hdec He). }
    rewrite Hx in Ha, Hb. rewrite Hb. rewrite Ha in H1.
    apply lookupCached_returned in H1; [|done].
    destruct H1 as [(cachedData & Hc & Hv & Hlt & ->)|(-> & Href & Hc)].
    + apply lookupCached_hit; [by rewrite Hcb|done|done].
    + apply lookupCached_no_refresh; [done|]. by rewrite Hcb.
  - destruct (getDelegatedToken_none req s Hacc) as (s' & Hr & _).
    rewrite Hr in H1. simplify_eq.
    by destruct (getDelegatedToken_none req s1 Hacc) as (s'' & -> & _).
Qed.

End Twice.

(** *** The resolver *)

Lemma append_empty_r (s : string) : s ++ "" = s.
Proof.
  induction s as [|x s IH]; [done|].
  change (String x (s ++ "") = String x s). by rewrite IH.
Qed.

Lemma hex_run_app n a r : hex_digits n a → hex_run n (a ++ r) = Some r.
Proof.
  revert a. induction n as [|n IH]; intros [|x a] [Hl Hh]; simplify_eq/=; [done|].
  apply andb_true_iff in Hh as [-> Hh]. by apply IH.
Qed.

Lemma hex_run_inv n (s : string) r :
  hex_run n s = Some r → ∃ a, s = a ++ r ∧ hex_digits n a.
Proof.
  revert s. induction n as [|n IH]; intros s H; simpl in H.
  - simplify_eq. by exists "".
  - destruct s as [|x s]; [done|]. destruct (is_hex x) eqn:Hx; [|done].
    destruct (IH _ H) as (a & -> & Hl & Hh). exists (String x a).
    split; [done|]. split; simpl; [by rewrite Hl|by rewrite Hx].
Qed.

Lemma dash_inv (s : string) r : dash s = Some r → s = "-" ++ r.
Proof.
  destruct s as [|x s]; [done|]. simpl.
  destruct (Ascii.eqb_spec x "-"); [|done]. intros; simplify_eq. done.
Qed.

Lemma dash_app r : dash ("-" ++ r) = Some r.
Proof. reflexivity. Qed.

Lemma matchesGuid_shape (s : string) : matchesGuid s = true ↔ canonical_shape s.
Proof.
  unfold matchesGuid, canonical_shape. split.
  - cbn [hex_groups]. intros H.
    destruct (hex_run 8 s) as [r1|] eqn:H1; [|done].
    destruct (dash r1) as [r2|] eqn:D1; [|done].
    destruct (hex_run 4 r2) as [r3|] eqn:H2; [|done].
    destruct (dash r3) as [r4|] eqn:D2; [|done].
    destruct (hex_run 4 r4) as [r5|] eqn:H3; [|done].
    destruct (dash r5) as [r6|] eqn:D3; [|done].
    destruct (hex_run 4 r6) as [r7|] eqn:H4; [|done].
    destruct (dash r7) as [r8|] eqn:D4; [|done].
    destruct (hex_run 12 r8) as [r9|] eqn:H5; [|done].
    destruct r9; [|done].
    apply hex_run_inv in H1 as (a & -> & Ha). apply dash_inv in D1 as ->.
    apply hex_run_inv in H2 as (b & -> & Hb). apply dash_inv in D2 as ->.
    apply hex_run_inv in H3 as (c & -> & Hc). apply dash_inv in D3 as ->.
    apply hex_run_inv in H4 as (d & -> & Hd). apply dash_inv in D4 as ->.
    apply hex_run_inv in H5 as (e & -> & He).
    exists a, b, c, d, e. split; [|done].
    by rewrite (append_empty_r e).
  - intros (a & b & c & d & e & -> & Ha & Hb & Hc & Hd & He).
    cbn [hex_groups].
    rewrite (hex_run_app 8 a _ Ha). rewrite dash_app.
    rewrite (hex_run_app 4 b _ Hb). rewrite dash_app.
    rewrite (hex_run_app 4 c _ Hc). rewrite dash_app.
    rewrite (hex_run_app 4 d _ Hd). rewrite dash_app.
    rewrite <- (append_empty_r e) at 1.
    rewrite (hex_run_app 12 e _ He). done.
Qed.

Lemma matchesGuid_nonempty ident : matchesGuid ident = true → ident ≠ "".
Proof. intros H ->. done. Qed.

Example matchesGuid_upper_case :
  matchesGuid "ABCDEF01-89ab-CdEf-0123-456789abcdef" = true.
Proof. reflexivity. Qed.

Example matchesGuid_rejects :
  matchesGuid "11111111-2222-3333-4444-5555555555555" = false ∧
  matchesGuid "x1111111-2222-3333-4444-555555555555" = false ∧
  matchesGuid "11111111222233334444555555555555" = false ∧
  matchesGuid "Project Falcon" = false.
Proof. done. Qed.

(** C6.  On a string of the canonical shape, which is what the pattern
    of the source accepts, [resolveTeamId] and [resolveUserId] return the
    string and leave the state as it is: no call is made, the test of the
    shape coming before any lookup. *)
Theorem resolve_canonical_unchanged accessToken ident s :
  canonical_shape ident →
  resolveTeamId accessToken (Some ident) s = (Ok (Some ident), s) ∧
  resolveUserId accessToken (Some ident) s = (Ok (Some ident), s).
Proof.
  intros H. apply matchesGuid_shape in H.
  pose proof (truthy_Some _ (matchesGuid_nonempty _ H)) as Ht.
  unfold resolveTeamId, resolveUserId. rewrite Ht.
  change (str (Some ident)) with ident. rewrite H. done.
Qed.

Lemma filter_filter_andb {A} (p q : A → bool) (l : list A) :
  List.filter q (List.filter p l) = List.filter (fun x => p x && q x) l.
Proof.
  induction l as [|x l IH]; [done|]. simpl.
  destruct (p x); simpl; [|done]. destruct (q x); by rewrite IH.
Qed.

Lemma filter_true {A} (l : list A) : List.filter (fun _ => true) l = l.
Proof. induction l as [|x l IH]; [done|]. simpl. by rewrite IH. Qed.

Lemma filterIf_filter {A} (c : bool) (p : A → bool) (l : list A) :
  filterIf c p l = List.filter (fun x => if c then p x else true) l.
Proof. destruct c; simpl; [done|]. by rewrite filter_true. Qed.

Lemma sort_insert_perm {A} (cmp : A → A → Z) x (l : list A) :
  Permutation (sort_insert cmp x l) (x :: l).
Proof.
  induction l as [|y l IH]; [done|]. simpl.
  destruct (cmp x y <=? 0); [done|]. rewrite IH. apply perm_swap.
Qed.

Lemma js_sort_perm {A} (cmp : A → A → Z) (l : list A) :
  Permutation (js_sort cmp l) l.
Proof.
  induction l as [|x l IH]; [done|]. simpl.
  rewrite sort_insert_perm. by constructor.
Qed.




(** [findMeetingId] once the listing is answered and the organizer, when
    one is asked for, is looked up. *)
Lemma findMeetingId_run accessToken c s meetings w1 organizerId s2 :
  accessToken ≠ "" →
  graph_get E accessToken "/me/onlineMeetings" (world s) = (inr meetings, w1) →
  (truthy (organizerEmail c) = true →
   findUserId accessToken (str (organizerEmail c)) (after_listing accessToken w1 s)
     = (Ok organizerId, s2)) →
  (findMeetingId accessToken c s).1 =
    Ok (id <$> head (js_sort mostRecentFirst
                       (survivors c organizerId (default [] (value meetings))))).
Proof.
  intros Htok Hget Horg.
  unfold findMeetingId, new_GraphClient.
  destruct (String.eqb_spec accessToken ""); [done|].
  unfold bind at 1, ret at 1, try_catch, bind at 1, client_get.
  unfold record_call at 1. cbn [world]. rewrite Hget.
  fold (record_call (CallGraphGet accessToken "/me/onlineMeetings") s).
  fold (after_listing accessToken w1 s).
  unfold survivors.
  destruct (value meetings) as [[|m all]|]; [done| |done].
  cbn [default from_option Datatypes.id].
  set (l := m :: all).
  rewrite filterIf_filter.
  destruct (truthy (organizerEmail c)) eqn:He.
  - unfold bind at 1, bind at 1. rewrite (Horg eq_refl). unfold ret.
    rewrite filterIf_filter, filter_filter_andb. cbn [andb fst].
    destruct (afterDate c) as [after|]; cbn [fst].
    + rewrite filter_filter_andb. done.
    + erewrite filter_ext; [reflexivity|]. intros x. cbv beta. by rewrite ?andb_true_r.
  - unfold bind at 1, ret. cbn [andb fst].
    destruct (afterDate c) as [after|]; cbn [fst].
    + rewrite filter_filter_andb.
      erewrite filter_ext; [reflexivity|]. intros x. cbv beta. by rewrite ?andb_true_r.
    + erewrite filter_ext; [reflexivity|]. intros x. cbv beta. by rewrite ?andb_true_r.
Qed.
















(** C9.  When an organizer is asked for and its lookup gives no
    identifier, [findMeetingId] goes on without the criterion of the
    organizer: it returns what the other criteria alone select, neither
    [null] for that reason nor an error. *)
Theorem findMeetingId_organizer_unresolved accessToken c s meetings w1 organizerId s2 :
  accessToken ≠ "" →
  graph_get E accessToken "/me/onlineMeetings" (world s) = (inr meetings, w1) →
  truthy (organizerEmail c) = true →
  findUserId accessToken (str (organizerEmail c)) (after_listing accessToken w1 s)
    = (Ok organizerId, s2) →
  truthy organizerId = false →
  (findMeetingId accessToken c s).1 =
    Ok (id <$> head (js_sort mostRecentFirst
                       (survivors {| title := title c; organizerEmail := None;
                                     afterDate := afterDate c |}
                                  None (default [] (value meetings))))).
Proof.
  intros Htok Hget He Horg Hnull.
  rewrite (findMeetingId_run accessToken c s meetings w1 organizerId s2 Htok Hget)
    by done.
  unfold survivors. rewrite Hnull, andb_false_r. done.
Qed.

End Properties.

(** ** The properties on the scenarios *)

Lemma getDelegatedToken_expired_refreshes_witness :
  (getDelegatedToken (bearer "h.p.s" (Some "r"))
     (start_expired [Some (answer "A1")] ∅)).1 = Ok (Some "A1").
Proof.
  pose proof (getDelegatedToken_expired_refreshes
                (bearer "h.p.s" (Some "r")) (start_expired [Some (answer "A1")] ∅)
                "h.p.s" "r" (claims_of_u 1699999000) 1699999000 t0 0%nat) as H.
  destruct H as [Hok _].
  - vm_compute; reflexivity.
  - discriminate.
  - vm_compute; reflexivity.
  - discriminate.
  - vm_compute; reflexivity.
  - reflexivity.
  - vm_compute; reflexivity.
  - unfold t0; lia.
  - vm_compute; reflexivity.
  - vm_compute; reflexivity.
  - destruct (Hok (answer "A1") 1%nat t0 1%nat) as (s' & Hrun & _).
    + vm_compute; reflexivity.
    + vm_compute; reflexivity.
    + rewrite Hrun. reflexivity.
Defined.

Lemma immediate_refresh_failure_keeps_entry_witness :
  ∃ s', getDelegatedToken (bearer "h.p.s" (Some "bad"))
          (start_expired [None] {["u" := cached_u]})
        = (Throw (Error "Failed to refresh access token"), s') ∧
        userTokenCache s' !! userIdOf (env_expired [None]) "h.p.s" = Some cached_u ∧
        tokenCacheFile s' = tokenCacheFile (start_expired [None] {["u" := cached_u]}).
Proof.
  apply (immediate_refresh_failure_keeps_entry
           (bearer "h.p.s" (Some "bad")) (start_expired [None] {["u" := cached_u]})
           "h.p.s" "bad" (claims_of_u 1699999000) 1699999000 t0 0%nat 1%nat cached_u).
  - vm_compute; reflexivity.
  - discriminate.
  - vm_compute; reflexivity.
  - discriminate.
  - vm_compute; reflexivity.
  - reflexivity.
  - vm_compute; reflexivity.
  - unfold t0; lia.
  - vm_compute; reflexivity.
  - vm_compute; reflexivity.
  - vm_compute; reflexivity.
  - vm_compute; reflexivity.
Defined.

(** After the rejected exchange, a request of the same user without a
    refresh token gets the access token of the record that was left. *)
Example entry_left_is_reused :
  let s' := (getDelegatedToken (bearer "h.p.s" (Some "bad"))
               (start_expired [None] {["u" := cached_u]})).2 in
  (getDelegatedToken (bearer "h.p.s" None) s').1 = Ok (Some "old").
Proof. vm_compute. reflexivity. Qed.

(** On the refresh of a stale cached record, the rejected exchange
    evicts the entry. *)
Example stale_entry_is_evicted :
  let s' := (getDelegatedToken (bearer "h.p.s" (Some "bad"))
               (start_lasting [None] {["u" := stale_u]})).2 in
  (getDelegatedToken (bearer "h.p.s" (Some "bad"))
     (start_lasting [None] {["u" := stale_u]})).1
    = Throw (Error "Failed to refresh access token") ∧
  userTokenCache s' !! "u" = None ∧
  (tokenCacheFile s' ≫= (.!! "u")) = None.
Proof. vm_compute. done. Qed.

Lemma getDelegatedToken_passthrough_witness :
  ∃ s', getDelegatedToken (bearer "h.p.s" None) (start_expired [] ∅)
        = (Ok (Some "h.p.s"), s') ∧
        calls s' = calls (start_expired [] ∅) ∧
        userTokenCache s' = userTokenCache (start_expired [] ∅) ∧
        tokenCacheFile s' = tokenCacheFile (start_expired [] ∅).
Proof.
  apply (getDelegatedToken_passthrough
           (bearer "h.p.s" None) (start_expired [] ∅)
           "h.p.s" (claims_of_u 1699999000) 1699999000 t0 0%nat).
  - vm_compute; reflexivity.
  - discriminate.
  - vm_compute; reflexivity.
  - vm_compute; reflexivity.
  - reflexivity.
  - vm_compute; reflexivity.
  - unfold t0; lia.
  - vm_compute; reflexivity.
Defined.

Lemma getDelegatedToken_twice_witness :
  (getDelegatedToken (bearer "h.p.s" None)
     (getDelegatedToken (bearer "h.p.s" None)
        (start_lasting [Some (answer "A1")] {["u" := stale_u]})).2).1
  = Ok (Some "A1").
Proof.
  apply (getDelegatedToken_twice (E:=env_lasting [Some (answer "A1")]))
    with (now := t0) (s := start_lasting [Some (answer "A1")] {["u" := stale_u]}).
  - intros w. reflexivity.
  - reflexivity.
  - intros refresh [|w] resp w1 H; vm_compute in H; [|discriminate H].
    injection H as <- _. vm_compute. split; reflexivity.
  - intros token decoded _ _ _. reflexivity.
  - vm_compute. reflexivity.
Defined.

(** C5 as stated fails: an expired access token that comes with a
    refresh token is exchanged at every call, and the token endpoint
    issues a new access token each time. *)
Lemma expired_token_refreshed_twice :
  ¬ (∀ (E : Env) now req (s : state E),
       (∀ w, (date_now E w).1 = now) →
       (getDelegatedToken req (getDelegatedToken req s).2).1
         = (getDelegatedToken req s).1).
Proof.
  intros H.
  specialize (H (env_expired [Some (answer "A1"); Some (answer "A2")]) t0
                (bearer "h.p.s" (Some "r")) (start_expired _ ∅)
                (fun w => eq_refl)).
  vm_compute in H. discriminate H.
Qed.

(** C1 as stated fails: an access token that expires after the reading
    of the clock is not refreshed, it is cached and returned. *)
Lemma expiry_after_now_not_refreshed :
  ¬ (∀ (E : Env) req (s : state E) token refresh decoded e now w resp w1,
       requestAccessToken req = Some token → token ≠ "" →
       requestRefreshToken req = Some refresh → refresh ≠ "" →
       decodeToken E token = Some decoded → exp decoded = Some e →
       date_now E (world s) = (now, w) →
       now ≤ e * 1000 →
       post_token E refresh w = (Some resp, w1) →
       (getDelegatedToken req s).1 = Ok (Some (access_token resp))).
Proof.
  intros H.
  specialize (H env_valid (bearer "h.p.s" (Some "r")) (start_valid ∅)
                "h.p.s" "r" (claims_of_u 1700000100) 1700000100 t0 0%nat (answer "A1") 1%nat).
  vm_compute in H.
  assert (Ok (Some "h.p.s") = Ok (Some "A1")) as Habs.
  { apply H; try reflexivity; discriminate. }
  discriminate Habs.
Qed.

(** C2 as stated fails: the record that caches a supplied token expires
    55 minutes after the reading of the clock, not 60 seconds before the
    expiry the token embeds. *)
Lemma cached_expiry_not_embedded_expiry :
  ¬ (∀ (E : Env) req (s : state E) token decoded e k r,
       requestAccessToken req = Some token →
       decodeToken E token = Some decoded → exp decoded = Some e →
       userTokenCache s !! k = None →
       userTokenCache (getDelegatedToken req s).2 !! k = Some r →
       accessToken r = token →
       expiresAt r = e * 1000 - 60 * 1000).
Proof.
  intros H.
  specialize (H env_valid (bearer "h.p.s" (Some "r")) (start_valid ∅)
                "h.p.s" (claims_of_u 1700000100) 1700000100 "u"
                {| accessToken := "h.p.s"; refreshToken := Some "r";
                   expiresAt := 1700003300000 |}).
  assert (1700003300000 = 1700000100 * 1000 - 60 * 1000) as Habs.
  { apply H; vm_compute; reflexivity. }
  discriminate Habs.
Qed.


Lemma resolve_canonical_unchanged_witness :
  resolveTeamId "token" (Some guid) start_meetings = (Ok (Some guid), start_meetings) ∧
  resolveUserId "token" (Some guid) start_meetings = (Ok (Some guid), start_meetings).
Proof.
  apply (resolve_canonical_unchanged "token" guid start_meetings).
  apply matchesGuid_shape. vm_compute; reflexivity.
Defined.


Lemma malformed_token_not_expired_witness :
  (∃ s', isTokenExpired "garbage" (start_valid ∅) = (Ok false, s') ∧
         quiet (start_valid ∅) s' ∧ world s' = world (start_valid ∅)) ∧
  (∃ s', getDelegatedToken (bearer "garbage" (Some "r")) (start_valid ∅)
         = (Ok (Some "garbage"), s') ∧ calls s' = calls (start_valid ∅)).
Proof.
  destruct (malformed_token_not_expired (E:=env_valid) "garbage") as [H1 H2].
  - vm_compute; reflexivity.
  - split; [exact (H1 (start_valid ∅))|].
    destruct (H2 (bearer "garbage" (Some "r")) (start_valid ∅)) as (_ & _ & H3).
    + vm_compute; reflexivity.
    + discriminate.
    + destruct H3 as (s' & Hrun & Hcalls & _).
      * vm_compute; reflexivity.
      * exists s'. split; [exact Hrun|exact Hcalls].
Defined.

Lemma findMeetingId_organizer_unresolved_witness :
  (findMeetingId "token" {| title := Some "Sync";
                            organizerEmail := Some "nobody@example.com";
                            afterDate := None |} start_meetings).1 = Ok (Some "m2").
Proof.
  rewrite (findMeetingId_organizer_unresolved (E:=env_meetings) "token"
             {| title := Some "Sync"; organizerEmail := Some "nobody@example.com";
                afterDate := None |}
             start_meetings listing 0%nat None
             (findUserId "token" "nobody@example.com"
                (after_listing (E:=env_meetings) "token" 0%nat start_meetings)).2).
  - vm_compute; reflexivity.
  - discriminate.
  - vm_compute; reflexivity.
  - vm_compute; reflexivity.
  - vm_compute; reflexivity.
  - vm_compute; reflexivity.
Defined.

Lemma stored_refresh_token_nonempty_witness :
  (∃ r s', refreshAccessToken "r" (start_expired [Some (answer "A1")] ∅) = (Ok r, s') ∧
           truthy (r_refreshToken r) = true ∧
           (truthy (refresh_token (answer "A1")) = false → r_refreshToken r = Some "r")) ∧
  truthy (refreshToken (refreshedRecord "r" (answer "A1") t0)) = true.
Proof.
  destruct (stored_refresh_token_nonempty (E:=env_expired [Some (answer "A1")]))
    as (H1 & H2 & _).
  split.
  - apply (H1 "r" (start_expired [Some (answer "A1")] ∅) (answer "A1") 1%nat).
    + discriminate.
    + vm_compute; reflexivity.
  - destruct (H2 (bearer "h.p.s" (Some "r")) (start_expired [Some (answer "A1")] ∅) "u"
                (refreshedRecord "r" (answer "A1") t0)) as [H|H].
    + vm_compute; reflexivity.
    + vm_compute in H. discriminate H.
    + exact H.
Defined.

Lemma stored_expiry_witness :
  ∃ refresh w resp w1 now w2,
    post_token (env_expired [Some (answer "A1")]) refresh w = (Some resp, w1) ∧
    date_now (env_expired [Some (answer "A1")]) w1 = (now, w2) ∧
    "A1" = access_token resp ∧
    1700003540000 = now + expires_in resp * 1000 - 60 * 1000.
Proof.
  assert (userTokenCache (getDelegatedToken (bearer "h.p.s" (Some "r"))
              (start_expired [Some (answer "A1")] ∅)).2 !! "u" = Some (refreshedRecord "r" (answer "A1") t0)) as H0 by (vm_compute; reflexivity).
  pose proof (stored_expiry _ _ _ _ H0) as H.
  destruct H as [H|[H|H]].
  - vm_compute in H. discriminate H.
  - exact H.
  - destruct H as (token & w & now & w2 & Ha & _ & Hb & _).
    vm_compute in Ha, Hb. congruence.
Defined.

(** ** Further properties of tokenManager.js *)

(** Symbolic execution of the code of the token manager. *)
Ltac use_eqs :=
  repeat match goal with
         | H : ?t = (_, _) |- context [?t] => rewrite H
         | H : ?t = true |- context [?t] => rewrite H
         | H : ?t = false |- context [?t] => rewrite H
         | H : ?t = Some _ |- context [?t] => rewrite H
         | H : ?t = None |- context [?t] => rewrite H
         end.

Ltac unfold_run :=
  unfold lookupCached, cacheOrReturnProvided,
    refreshCached, refreshWithProvided, refreshAccessToken,
    isTokenExpired, getUserIdFromToken, saveTokenCache, clearUserToken,
    axios_post_token, Date_now, cache_set, cache_delete, get_cache,
    bind, ret, throw, try_catch, log, with_file, with_cache,
    with_world, record_call in *.

Ltac run :=
  repeat (simplify_eq/=; unfold_run; simplify_eq/=; use_eqs; try case_match).

Section TokenManager.

Context {E : Env}.
Implicit Types (s : state E) (req : request).

Lemma refreshWithProvided_returns userId refresh s r s' :
  refreshWithProvided userId refresh s = (Ok r, s') → is_Some r.
Proof. intros H. run; eauto. Qed.

Lemma lookupCached_returns userId token refresh expired s r s' :
  lookupCached userId token refresh expired s = (Ok r, s') → is_Some r.
Proof. intros H. run; eauto. Qed.

(** [getDelegatedToken] returns [null] exactly when the request carries
    no access token, and then it touches neither the cache, nor the
    file, nor the network. *)
Theorem getDelegatedToken_null_iff req s r s' :
  getDelegatedToken req s = (Ok r, s') →
  (r = None ↔ truthy (requestAccessToken req) = false) ∧
  (r = None → quiet s s' ∧ world s' = world s).
Proof.
  intros H. destruct (truthy (requestAccessToken req)) eqn:Hacc.
  - destruct (truthy_str _ Hacc) as [Hsome Hne].
    destruct (getDelegatedToken_run req s _ Hsome Hne) as (s1 & _ & _ & Hrun).
    rewrite Hrun in H.
    assert (is_Some r) as [t ->].
    { destruct (_ && _).
      - by eapply refreshWithProvided_returns.
      - by eapply lookupCached_returns. }
    split; [split; intros; done|done].
  - destruct (getDelegatedToken_none req s Hacc) as (s2 & Hrun & Hq & Hw).
    rewrite Hrun in H. simplify_eq. done.
Qed.

(** A cached record that is not stale wins: unless the request carries
    an expired access token together with a refresh token,
    [getDelegatedToken] returns the cached access token, whatever token
    the request carries, without calling the token endpoint and without
    changing the cache or the file. *)
Theorem cached_token_wins req s token cachedData now w :
  requestAccessToken req = Some token → token ≠ "" →
  (checkExpiry E token (world s)).1 && truthy (requestRefreshToken req) = false →
  userTokenCache s !! userIdOf E token = Some cachedData →
  validTime (expiresAt cachedData) = true →
  date_now E (checkExpiry E token (world s)).2 = (now, w) →
  now < expiresAt cachedData →
  ∃ s', getDelegatedToken req s = (Ok (Some (accessToken cachedData)), s') ∧
        quiet s s'.
Proof.
  intros Hacc Htok Hb Hc Hv Hnow Hlt.
  destruct (getDelegatedToken_run req s token Hacc Htok)
    as (s1 & (Hc1 & Hf1 & Hk1) & Hw & Hrun).
  rewrite Hb in Hrun. rewrite Hrun.
  unfold lookupCached, bind at 1, get_cache. rewrite Hc1, Hc.
  unfold bind at 1. rewrite Hv. unfold log at 1, bind at 1, Date_now. cbn [world].
  rewrite Hw, Hnow. apply Z.ltb_lt in Hlt. rewrite Hlt.
  eexists. split; [reflexivity|]. unfold quiet. simpl. done.
Qed.

Lemma refreshCached_ok userId refresh s resp w1 now w2 :
  post_token E refresh (world s) = (Some resp, w1) →
  date_now E w1 = (now, w2) →
  ∃ s', refreshCached userId refresh s = (Ok (Some (access_token resp)), s') ∧
        userTokenCache s' = <[userId := refreshedRecord refresh resp now]> (userTokenCache s) ∧
        calls s' = (calls s ++ [CallTokenEndpoint refresh])%list.
Proof. intros H1 H2. unfold refreshedRecord. run; eexists; done. Qed.

(** Unless the request carries an expired access token together with a
    refresh token (the immediate refresh, which does not look at the
    cache and keeps the entry when the exchange is rejected), a cached
    record with a valid expiry that the clock has reached is refreshed
    with the refresh token of the request when it carries one, else with
    the cached one.  When the exchange succeeds the record is replaced
    and the new access token returned; when it is rejected the entry of
    the identity is deleted from the cache, the cache is handed to
    [saveTokenCache], and the error is thrown. *)
Theorem stale_record_refreshed req s token cachedData now w :
  requestAccessToken req = Some token → token ≠ "" →
  (checkExpiry E token (world s)).1 && truthy (requestRefreshToken req) = false →
  userTokenCache s !! userIdOf E token = Some cachedData →
  validTime (expiresAt cachedData) = true →
  date_now E (checkExpiry E token (world s)).2 = (now, w) →
  expiresAt cachedData ≤ now →
  let tokenToUse := js_or (requestRefreshToken req) (refreshToken cachedData) in
  truthy tokenToUse = true →
  (∀ r, requestRefreshToken req = Some r → r ≠ "" → tokenToUse = Some r) ∧
  (∀ resp w1 t w2,
     post_token E (str tokenToUse) w = (Some resp, w1) → date_now E w1 = (t, w2) →
     ∃ s', getDelegatedToken req s = (Ok (Some (access_token resp)), s') ∧
           userTokenCache s' =
             <[userIdOf E token := refreshedRecord (str tokenToUse) resp t]>
               (userTokenCache s) ∧
           calls s' = (calls s ++ [CallTokenEndpoint (str tokenToUse)])%list) ∧
  (∀ w1,
     post_token E (str tokenToUse) w = (None, w1) →
     ∃ s', getDelegatedToken req s =
             (Throw (Error "Failed to refresh access token"), s') ∧
           userTokenCache s' = delete (userIdOf E token) (userTokenCache s) ∧
           calls s' = (calls s ++ [CallTokenEndpoint (str tokenToUse)])%list ∧
           tokenCacheFile s' =
             (if serializable (delete (userIdOf E token) (userTokenCache s))
                 && (write_file E w1).1
              then Some (delete (userIdOf E token) (userTokenCache s))
              else tokenCacheFile s)).
Proof.
  intros Hacc Htok Hb Hc Hv Hnow Hle tokenToUse Htr.
  split.
  { intros r Hr Hne. subst tokenToUse. unfold js_or.
    by rewrite Hr, (truthy_Some _ Hne). }
  assert (∃ s2, getDelegatedToken req s
                  = refreshCached (userIdOf E token) (str tokenToUse) s2 ∧
                userTokenCache s2 = userTokenCache s ∧
                tokenCacheFile s2 = tokenCacheFile s ∧
                calls s2 = calls s ∧ world s2 = w)
    as (s2 & -> & Hc2 & Hf2 & Hk2 & Hw2).
  { destruct (getDelegatedToken_run req s token Hacc Htok)
      as (s1 & (Hc1 & Hf1 & Hk1) & Hw & Hrun).
    rewrite Hb in Hrun. rewrite Hrun. clear Hrun.
    unfold lookupCached, bind at 1, get_cache. rewrite Hc1, Hc.
    unfold bind at 1. rewrite Hv. unfold log at 1, bind at 1, Date_now. cbn [world].
    rewrite Hw, Hnow. apply Z.ltb_ge in Hle. rewrite Hle.
    unfold bind at 1, log at 1. fold tokenToUse. rewrite Htr.
    eexists. split; [reflexivity|]. simpl. done. }
  rewrite <- Hw2. split.
  - intros resp w1 t w2 Hpost Ht.
    destruct (refreshCached_ok (userIdOf E token) (str tokenToUse) s2 resp w1 t w2 Hpost Ht)
      as (s' & -> & H1 & H2).
    exists s'. rewrite H1, H2, Hc2, Hk2. done.
  - intros w1 Hpost.
    destruct (refreshCached_fail (userIdOf E token) (str tokenToUse) s2 w1 Hpost)
      as (s' & -> & H1 & H2 & H3).
    exists s'. rewrite H1, H2, H3, Hc2, Hk2, Hf2. done.
Qed.

Lemma refreshWithProvided_effects userId refresh s r s' :
  refreshWithProvided userId refresh s = (r, s') →
  (∀ k, k ≠ userId → userTokenCache s' !! k = userTokenCache s !! k) ∧
  calls s' = (calls s ++ [CallTokenEndpoint refresh])%list.
Proof.
  intros H. run.
  all: split; [intros k Hne; by rewrite ?lookup_insert_ne, ?lookup_delete_ne|done].
Qed.

Lemma lookupCached_effects userId token refresh expired s r s' :
  lookupCached userId token refresh expired s = (r, s') →
  (∀ k, k ≠ userId → userTokenCache s' !! k = userTokenCache s !! k) ∧
  (calls s' = calls s ∨
   ∃ x, x ≠ "" ∧ calls s' = (calls s ++ [CallTokenEndpoint x])%list).
Proof.
  intros H. run.
  all: split; [intros k Hne; by rewrite ?lookup_insert_ne, ?lookup_delete_ne|].
  all: try (left; reflexivity).
  all: right; eexists; split; [|reflexivity].
  all: match goal with
       | H : truthy ?v = true |- str ?v ≠ "" => exact (proj2 (truthy_str _ H))
       end.
Qed.

(** [getDelegatedToken] leaves the cached records of the other
    identities as they are. *)
Theorem getDelegatedToken_other_identities req s k :
  k ≠ userIdOf E (str (requestAccessToken req)) →
  userTokenCache (getDelegatedToken req s).2 !! k = userTokenCache s !! k.
Proof.
  intros Hne. destruct (truthy (requestAccessToken req)) eqn:Hacc.
  - destruct (truthy_str _ Hacc) as [Hsome Hn].
    destruct (getDelegatedToken_run req s _ Hsome Hn) as (s1 & (Hc & _) & _ & Hrun).
    rewrite Hrun, <- Hc. destruct (_ && _).
    + by eapply refreshWithProvided_effects; [apply surjective_pairing|].
    + by eapply lookupCached_effects; [apply surjective_pairing|].
  - destruct (getDelegatedToken_none req s Hacc) as (s' & -> & (Hc & _) & _).
    simpl. by rewrite Hc.
Qed.

(** One call of [getDelegatedToken] makes at most one exchange with the
    token endpoint, with a non-empty refresh token, and no other call to
    the network: a rejected exchange is not tried again. *)
Theorem getDelegatedToken_one_exchange req s :
  calls (getDelegatedToken req s).2 = calls s ∨
  ∃ r, r ≠ "" ∧
       calls (getDelegatedToken req s).2 = (calls s ++ [CallTokenEndpoint r])%list.
Proof.
  destruct (truthy (requestAccessToken req)) eqn:Hacc.
  - destruct (truthy_str _ Hacc) as [Hsome Hn].
    destruct (getDelegatedToken_run req s _ Hsome Hn) as (s1 & (_ & _ & Hk) & _ & Hrun).
    rewrite Hrun, <- Hk. destruct (_ && _) eqn:Hb.
    + apply andb_true_iff in Hb as [_ Hr]. destruct (truthy_str _ Hr) as [_ Hne].
      right. eexists. split; [exact Hne|].
      eapply refreshWithProvided_effects. apply surjective_pairing.
    + eapply lookupCached_effects. apply surjective_pairing.
  - destruct (getDelegatedToken_none req s Hacc) as (s' & -> & (_ & _ & Hk) & _).
    left. done.
Qed.

(** Unless the request carries an expired access token together with a
    refresh token (the immediate refresh, which does not look at the
    cache and overwrites the record), a cached record whose expiry is not
    a valid date makes [getDelegatedToken] throw a [RangeError] for its
    identity, before the record is used: nothing is returned, refreshed
    or evicted. *)
Theorem invalid_cached_expiry_throws req s token cachedData :
  requestAccessToken req = Some token → token ≠ "" →
  (checkExpiry E token (world s)).1 && truthy (requestRefreshToken req) = false →
  userTokenCache s !! userIdOf E token = Some cachedData →
  validTime (expiresAt cachedData) = false →
  ∃ s', getDelegatedToken req s = (Throw (Error "Invalid time value"), s') ∧
        quiet s s'.
Proof.
  intros Hacc Htok Hb Hc Hv.
  destruct (getDelegatedToken_run req s token Hacc Htok)
    as (s1 & Hq & Hw & Hrun).
  rewrite Hb in Hrun. rewrite Hrun.
  unfold lookupCached, bind at 1, get_cache.
  destruct Hq as (Hc1 & Hf1 & Hk1). rewrite Hc1, Hc.
  unfold bind at 1. rewrite Hv. unfold throw.
  eexists. split; [reflexivity|]. by unfold quiet.
Qed.

End TokenManager.

Section ConsoleTrace.

Context {E : Env}.
Implicit Types (s : state E) (req : request).

Ltac grows :=
  first
    [ eexists; split;
      [rewrite <- ?app_assoc; reflexivity | simpl; intuition discriminate]
    | exists []; split; [by rewrite app_nil_r | simpl; tauto] ].

Ltac prelude :=
  eexists _, _; refine (conj _ (conj _ _));
  [ | | first [reflexivity | by destruct (truthy _)] ];
  [ simpl; rewrite <- ?app_assoc; reflexivity | simpl; intuition discriminate ].

(** The lines of the prelude of [getDelegatedToken]. *)
Lemma getDelegatedToken_run_console req s token :
  requestAccessToken req = Some token → token ≠ "" →
  ∃ s1 l, (console s1 = console s ++ l)%list ∧ ¬ In LogNotCachingExpired l ∧
        getDelegatedToken req s =
          if (checkExpiry E token (world s)).1 && truthy (requestRefreshToken req)
          then refreshWithProvided (userIdOf E token)
                 (str (requestRefreshToken req)) s1
          else lookupCached (userIdOf E token) token (requestRefreshToken req)
                 (checkExpiry E token (world s)).1 s1.
Proof.
  intros Hacc Htok.
  unfold getDelegatedToken. rewrite Hacc, (truthy_Some _ Htok).
  cbn [negb]. change (str (Some token)) with token.
  unfold getUserIdFromToken, isTokenExpired, checkExpiry, userIdOf, expiredAt.
  destruct (decodeToken E token) as [d|];
    unfold bind, ret, log, Date_now; cbn [world].
  - destruct (date_now E (world s)) as [now w]. cbn [fst snd].
    destruct (exp d) as [e|]; cbn [fst snd].
    + destruct (e * 1000 <=? now); cbn [andb].
      * destruct (validTime (e * 1000) && validTime now); cbn [fst snd]; prelude.
      * prelude.
    + prelude.
  - prelude.
Qed.

Lemma refreshWithProvided_console userId refresh s :
  ∃ l, (console (refreshWithProvided userId refresh s).2 = console s ++ l)%list ∧
       ¬ In LogNotCachingExpired l.
Proof. run; grows. Qed.

Lemma lookupCached_console userId token refresh expired s :
  expired && truthy refresh = false →
  ∃ l, (console (lookupCached userId token refresh expired s).2 = console s ++ l)%list ∧
       ¬ In LogNotCachingExpired l.
Proof.
  intros H. destruct expired; cbn [andb] in H; run; grows.
Qed.

(** The refresh that follows the line [Not caching expired access token]
    (lines 437-454) is never reached: [getDelegatedToken] never writes
    that line, since an expired access token that comes with a refresh
    token is refreshed before the cache is looked up. *)
Theorem not_caching_branch_unreachable req s :
  ∃ l, (console (getDelegatedToken req s).2 = console s ++ l)%list ∧
       ¬ In LogNotCachingExpired l.
Proof.
  destruct (truthy (requestAccessToken req)) eqn:Hacc.
  - destruct (truthy_str _ Hacc) as [Hsome Hn].
    destruct (getDelegatedToken_run_console req s _ Hsome Hn)
      as (s1 & l1 & Hl1 & Hn1 & ->).
    destruct (_ && _) eqn:Hb.
    + destruct (refreshWithProvided_console (userIdOf E (str (requestAccessToken req)))
                  (str (requestRefreshToken req)) s1) as (l2 & -> & Hn2).
      exists (l1 ++ l2)%list. rewrite Hl1, app_assoc. split; [done|].
      rewrite in_app_iff. tauto.
    + destruct (lookupCached_console (userIdOf E (str (requestAccessToken req)))
                  (str (requestAccessToken req)) (requestRefreshToken req) _ s1 Hb)
        as (l2 & -> & Hn2).
      exists (l1 ++ l2)%list. rewrite Hl1, app_assoc. split; [done|].
      rewrite in_app_iff. tauto.
  - unfold getDelegatedToken. rewrite Hacc. simpl.
    exists [LogNoAccessToken]. split; [done|]. simpl. intuition discriminate.
Qed.

End ConsoleTrace.

(** ** Write-through, the sources of the token, logout *)

Section Persistence.

Context {E : Env}.
Implicit Types (s : state E) (req : request).

Section WriteThrough.

Hypothesis writes : ∀ w, (write_file E w).1 = true.

Ltac synced :=
  match goal with
  | H : write_file E ?w = (false, _) |- _ =>
      pose proof (writes w) as Hw; rewrite H in Hw; discriminate Hw
  | _ => congruence
  end.

Lemma refreshWithProvided_sync userId refresh s r s' :
  refreshWithProvided userId refresh s = (r, s') →
  serializable (userTokenCache s') = true → in_sync s → in_sync s'.
Proof. unfold in_sync. intros Heq Hs H. run; synced. Qed.

Lemma lookupCached_sync userId token refresh expired s r s' :
  lookupCached userId token refresh expired s = (r, s') →
  serializable (userTokenCache s') = true → in_sync s → in_sync s'.
Proof. unfold in_sync. intros Heq Hs H. run; synced. Qed.

(** Write-through: when the file can be written, the file agrees with
    the cache before a call, and every expiry in the cache after the call
    is a valid date, the file agrees with the cache after
    [getDelegatedToken] and after [clearUserToken]. *)
Theorem cache_written_through :
  (∀ req s,
     serializable (userTokenCache (getDelegatedToken req s).2) = true →
     in_sync s → in_sync (getDelegatedToken req s).2) ∧
  (∀ token s,
     serializable (userTokenCache (clearUserToken token s).2) = true →
     in_sync s → in_sync (clearUserToken token s).2).
Proof.
  split.
  - intros req s Hs Hsync. destruct (truthy (requestAccessToken req)) eqn:Hacc.
    + destruct (truthy_str _ Hacc) as [Hsome Hn].
      destruct (getDelegatedToken_run req s _ Hsome Hn) as (s1 & (Hc & Hf & _) & _ & Hrun).
      rewrite Hrun in Hs |- *.
      assert (in_sync s1) as Hs1 by (unfold in_sync in *; congruence).
      destruct (_ && _).
      * eapply refreshWithProvided_sync; [apply surjective_pairing|done|done].
      * eapply lookupCached_sync; [apply surjective_pairing|done|done].
    + destruct (getDelegatedToken_none req s Hacc) as (s' & -> & (Hc & Hf & _) & _).
      unfold in_sync in *. simpl. congruence.
  - intros token s Hs Hsync. unfold clearUserToken in Hs |- *.
    unfold bind at 1 in Hs. unfold bind at 1.
    destruct (getUserIdFromToken_run token s) as (s1 & Hrun & (Hc & Hf & _) & _).
    rewrite Hrun in Hs |- *.
    assert (in_sync s1) as Hs1 by (unfold in_sync in *; congruence).
    clear Hrun. unfold in_sync in *. run; synced.
Qed.

End WriteThrough.

Lemma startsWith_app (p r : string) : startsWith p (p ++ r) = true.
Proof.
  induction p as [|a p IH]; [done|].
  change (Ascii.eqb a a && startsWith p (p ++ r) = true).
  by rewrite Ascii.eqb_refl, IH.
Qed.

(** The access token of a request: [Authorization: Bearer t] gives [t]
    whatever the body holds; an [Authorization] value without that prefix
    is the token itself; the body is read only when the header gives no
    token, which includes the header [Bearer ] with nothing after it. *)
Theorem requestAccessToken_sources (t : string) (refresh : option string) (b : option body) :
  (t ≠ "" →
   requestAccessToken {| req_headers := {| authorization := Some ("Bearer " ++ t);
                                           x_refresh_token := refresh |};
                         req_body := b |} = Some t) ∧
  (t ≠ "" → startsWith "Bearer " t = false →
   requestAccessToken {| req_headers := {| authorization := Some t;
                                           x_refresh_token := refresh |};
                         req_body := b |} = Some t) ∧
  requestAccessToken {| req_headers := {| authorization := Some "Bearer ";
                                          x_refresh_token := refresh |};
                        req_body := b |} = b ≫= body_accessToken ∧
  requestAccessToken {| req_headers := {| authorization := None;
                                          x_refresh_token := refresh |};
                        req_body := b |} = b ≫= body_accessToken.
Proof.
  split; [|split; [|split]]; try done.
  - intros Hne. unfold requestAccessToken. cbn [req_headers authorization].
    change (truthy (Some ("Bearer " ++ t))) with true. cbn iota.
    change (str (Some ("Bearer " ++ t))) with ("Bearer " ++ t).
    rewrite startsWith_app.
    change (drop_chars 7 ("Bearer " ++ t)) with t.
    by rewrite (truthy_Some _ Hne).
  - intros Hne Hno. unfold requestAccessToken. cbn [req_headers authorization].
    rewrite (truthy_Some _ Hne). change (str (Some t)) with t.
    by rewrite Hno, (truthy_Some _ Hne).
Qed.

(** After [clearUserToken], a request with the same access token and no
    refresh token is no longer served from the cache: it gets its own
    token back. *)
Theorem cleared_token_not_served token req s :
  requestAccessToken req = Some token → token ≠ "" →
  truthy (requestRefreshToken req) = false →
  (getDelegatedToken req (clearUserToken token s).2).1 = Ok (Some token) ∧
  userTokenCache (clearUserToken token s).2 = delete (userIdOf E token) (userTokenCache s).
Proof.
  intros Hacc Htok Href.
  assert (userTokenCache (clearUserToken token s).2
          = delete (userIdOf E token) (userTokenCache s)) as Hdel.
  { unfold clearUserToken, bind at 1.
    destruct (getUserIdFromToken_run token s) as (s1 & -> & (Hc & _) & _).
    rewrite <- Hc. run; done. }
  split; [|done].
  destruct (getDelegatedToken_run req (clearUserToken token s).2 token Hacc Htok)
    as (s1 & (Hc & _) & _ & ->).
  rewrite Href, andb_false_r.
  rewrite lookupCached_absent by (rewrite Hc, Hdel; apply lookup_delete_eq).
  by destruct (cacheOrReturnProvided_passthrough (userIdOf E token) token
                 (requestRefreshToken req) (checkExpiry E token (world (clearUserToken token s).2)).1
                 s1 Href) as (s' & -> & _).
Qed.

(** Tokens that cannot be decoded share the cache entry [default-user]:
    once one of them was cached with its refresh token, a request with
    another such token is handed the first one, as long as the record is
    not stale. *)
Theorem undecodable_tokens_share_entry now reqA reqB s tokenA tokenB :
  (∀ w, (date_now E w).1 = now) →
  validTime (now + 55 * 60 * 1000) = true →
  decodeToken E tokenA = None → decodeToken E tokenB = None →
  requestAccessToken reqA = Some tokenA → tokenA ≠ "" →
  truthy (requestRefreshToken reqA) = true →
  requestAccessToken reqB = Some tokenB → tokenB ≠ "" →
  userTokenCache s !! "default-user" = None →
  (getDelegatedToken reqA s).1 = Ok (Some tokenA) ∧
  (getDelegatedToken reqB (getDelegatedToken reqA s).2).1 = Ok (Some tokenA).
Proof.
  intros Hclock Hrange HdA HdB HaccA HneA HrefA HaccB HneB Hnone.
  destruct (getDelegatedToken_run reqA s tokenA HaccA HneA)
    as (s1 & (Hc & _) & Hw & HrunA).
  rewrite (checkExpiry_malformed _ _ HdA), (userIdOf_malformed _ HdA) in HrunA.
  cbn [fst andb] in HrunA.
  rewrite lookupCached_absent in HrunA by (by rewrite Hc).
  destruct (date_now E (world s1)) as [t w1] eqn:Hnow.
  pose proof (clock_reading now Hclock _ _ _ Hnow) as ->.
  destruct (cacheOrReturnProvided_fresh "default-user" tokenA
              (requestRefreshToken reqA) s1 now w1 HrefA Hnow)
    as (s2 & Hr & Hc2 & _).
  rewrite HrunA, Hr. split; [done|]. cbn [snd].
  destruct (getDelegatedToken_run reqB s2 tokenB HaccB HneB)
    as (s3 & (Hc3 & _) & _ & ->).
  rewrite (checkExpiry_malformed _ _ HdB), (userIdOf_malformed _ HdB).
  cbn [fst andb].
  rewrite (lookupCached_hit now Hclock "default-user" tokenB (requestRefreshToken reqB)
             false s3 {| accessToken := tokenA; refreshToken := requestRefreshToken reqA;
                         expiresAt := now + 55 * 60 * 1000 |}); [done| |done|simpl; lia].
  rewrite Hc3, Hc2. apply lookup_insert_eq.
Qed.

End Persistence.

(** ** Properties of the application token and of the middleware *)

Section Middleware.

Context {E : Env}.
Variable post : W E → (error + token_response) * W E.
Implicit Types (a : app_state E) (req : http_request).

Ltac runA :=
  repeat (simplify_eq/=;
          unfold getAppToken, axios_post_client_credentials, set_appTokenCache,
            get_appTokenCache, in_process, with_process, bindA, retA, logA,
            Date_now, with_world in *;
          simplify_eq/=; use_eqs; try case_match).

Lemma getAppToken_fresh_run a :
  app_token_fresh a = true →
  ∃ a', getAppToken post a = (Ok (str (app_token (appTokenCache a))), a') ∧
        appTokenCache a' = appTokenCache a ∧ exchanges a' = exchanges a ∧
        quiet (process a) (process a').
Proof.
  unfold app_token_fresh. intros H. apply andb_true_iff in H as [Ht Hlt].
  runA; eexists; (split; [reflexivity|]); by unfold quiet.
Qed.

(** [getAppToken] returns its cached token, without any exchange, as
    long as the clock reads less than the expiry of the cache. *)
Theorem getAppToken_cached a :
  app_token_fresh a = true →
  ∃ a', getAppToken post a = (Ok (str (app_token (appTokenCache a))), a') ∧
        appTokenCache a' = appTokenCache a ∧ exchanges a' = exchanges a ∧
        quiet (process a) (process a').
Proof. apply getAppToken_fresh_run. Qed.

Lemma getAppToken_stale_run a :
  app_token_fresh a = false →
  (∀ resp w1 now w2,
     post (world_after_check a) = (inr resp, w1) → date_now E w1 = (now, w2) →
     ∃ a', getAppToken post a = (Ok (access_token resp), a') ∧
           appTokenCache a' =
             {| app_token := Some (access_token resp);
                app_expiresAt := now + (expires_in resp - 60) * 1000 |} ∧
           exchanges a' = S (exchanges a) ∧
           quiet (process a) (process a')) ∧
  (∀ e w1,
     post (world_after_check a) = (inl e, w1) →
     ∃ a', getAppToken post a = (Throw e, a') ∧
           appTokenCache a' = appTokenCache a ∧
           exchanges a' = S (exchanges a) ∧
           quiet (process a) (process a')).
Proof.
  unfold app_token_fresh, world_after_check. intros H.
  split.
  - intros resp w1 now w2 Hpost Hnow.
    destruct (truthy (app_token (appTokenCache a))) eqn:Ht; cbn [andb] in H.
    + destruct (date_now E (world (process a))) as [t w] eqn:Hd. cbn [fst snd] in *.
      runA; eexists; (split; [reflexivity|]); by unfold quiet.
    + runA; eexists; (split; [reflexivity|]); by unfold quiet.
  - intros e w1 Hpost.
    destruct (truthy (app_token (appTokenCache a))) eqn:Ht; cbn [andb] in H.
    + destruct (date_now E (world (process a))) as [t w] eqn:Hd. cbn [fst snd] in *.
      runA; eexists; (split; [reflexivity|]); by unfold quiet.
    + runA; eexists; (split; [reflexivity|]); by unfold quiet.
Qed.

(** Without a usable cached token, [getAppToken] exchanges the client
    credentials once.  The token of the answer is returned and cached
    until 60 seconds before the end of its lifetime; a rejected exchange
    is thrown to the caller and leaves the cache as it was. *)
Theorem getAppToken_exchange a :
  app_token_fresh a = false →
  (∀ resp w1 now w2,
     post (world_after_check a) = (inr resp, w1) → date_now E w1 = (now, w2) →
     ∃ a', getAppToken post a = (Ok (access_token resp), a') ∧
           appTokenCache a' =
             {| app_token := Some (access_token resp);
                app_expiresAt := now + (expires_in resp - 60) * 1000 |} ∧
           exchanges a' = S (exchanges a) ∧
           quiet (process a) (process a')) ∧
  (∀ e w1,
     post (world_after_check a) = (inl e, w1) →
     ∃ a', getAppToken post a = (Throw e, a') ∧
           appTokenCache a' = appTokenCache a ∧
           exchanges a' = S (exchanges a) ∧
           quiet (process a) (process a')).
Proof. apply getAppToken_stale_run. Qed.

(** With the clock standing still, a call of [getAppToken] that returns
    is followed by a call that returns the same token without a new
    exchange, when the answers of the token endpoint carry a non-empty
    token and a lifetime of more than 60 seconds. *)
Theorem getAppToken_twice now a t a1 :
  (∀ w, (date_now E w).1 = now) →
  (∀ w resp w1, post w = (inr resp, w1) →
                access_token resp ≠ "" ∧ 60 < expires_in resp) →
  getAppToken post a = (Ok t, a1) →
  ∃ a2, getAppToken post a1 = (Ok t, a2) ∧ exchanges a2 = exchanges a1.
Proof.
  intros Hclock Hans H1.
  assert (app_token_fresh a1 = true ∧ str (app_token (appTokenCache a1)) = t) as [Hf Ht].
  { unfold app_token_fresh.
    destruct (app_token_fresh a) eqn:Hfa.
    - destruct (getAppToken_fresh_run a Hfa) as (a' & Hr & Hc & _ & _).
      rewrite Hr in H1. simplify_eq. rewrite Hc.
      unfold app_token_fresh in Hfa. apply andb_true_iff in Hfa as [Htr Hlt].
      rewrite Htr. rewrite Hclock in Hlt |- *. done.
    - destruct (getAppToken_stale_run a Hfa) as [Hok Hfail].
      destruct (post (world_after_check a)) as [[e|resp] w1] eqn:Hpost.
      + destruct (Hfail e w1 eq_refl) as (a' & Hr & _). rewrite Hr in H1. done.
      + destruct (date_now E w1) as [t1 w2] eqn:Hd.
        destruct (Hok resp w1 t1 w2 eq_refl Hd) as (a' & Hr & Hc & _).
        rewrite Hr in H1. simplify_eq. rewrite Hc. cbn [app_token app_expiresAt].
        destruct (Hans _ _ _ Hpost) as [Hne Hlife].
        pose proof (Hclock w1) as Hw1. rewrite Hd in Hw1. cbn [fst] in Hw1. subst t1.
        rewrite (truthy_Some _ Hne), Hclock. split; [|done].
        cbn [andb]. apply Z.ltb_lt. lia. }
  destruct (getAppToken_fresh_run a1 Hf) as (a2 & Hr & _ & Hx & _).
  exists a2. by rewrite Hr, Ht.
Qed.

Lemma refreshWithProvided_throws userId refresh (s : state E) e s' :
  refreshWithProvided userId refresh s = (Throw e, s') →
  e = Error "Failed to refresh access token".
Proof. intros H. run; done. Qed.

Lemma lookupCached_throws userId token refresh expired (s : state E) e s' :
  lookupCached userId token refresh expired s = (Throw e, s') →
  e = Error "Failed to refresh access token" ∨ e = Error "Invalid time value".
Proof. intros H. run; eauto. Qed.

Lemma getDelegatedToken_throws (r : request) (s : state E) e s' :
  getDelegatedToken r s = (Throw e, s') →
  e = Error "Failed to refresh access token" ∨ e = Error "Invalid time value".
Proof.
  intros H. destruct (truthy (requestAccessToken r)) eqn:Hacc.
  - destruct (truthy_str _ Hacc) as [Hsome Hn].
    destruct (getDelegatedToken_run r s _ Hsome Hn) as (s1 & _ & _ & Hrun).
    rewrite Hrun in H. destruct (_ && _).
    + left. by eapply refreshWithProvided_throws.
    + by eapply lookupCached_throws.
  - destruct (getDelegatedToken_none r s Hacc) as (s2 & Hrun & _).
    rewrite Hrun in H. done.
Qed.

(** [getDelegatedToken] throws only two errors: the one of a rejected
    exchange, [Failed to refresh access token], and the [RangeError] of
    a cached expiry that is not a valid date. *)
Theorem getDelegatedToken_errors (r : request) (s : state E) e s' :
  getDelegatedToken r s = (Throw e, s') →
  e = Error "Failed to refresh access token" ∨ e = Error "Invalid time value".
Proof. apply getDelegatedToken_throws. Qed.

Lemma getAppToken_quiet a :
  quiet (process a) (process (getAppToken post a).2).
Proof. runA; by unfold quiet. Qed.

Lemma resolve_delegated req a :
  requiresRoute delegatedOnlyRoutes (path req) = true →
  ∃ a', resolveGraphToken post req a
          = (Ok (delegated_outcome (getDelegatedToken (tokens req) (process a)).1), a') ∧
        appTokenCache a' = appTokenCache a ∧
        exchanges a' = exchanges a ∧
        process a' = (getDelegatedToken (tokens req) (process a)).2.
Proof.
  intros H. unfold resolveGraphToken, try_catchA. rewrite H.
  unfold bindA at 1, logA at 1. unfold bindA at 1, in_process at 1.
  cbn [process].
  destruct (getDelegatedToken (tokens req) (process a)) as [[t|e] p].
  - unfold delegated_outcome. cbn [fst snd with_process].
    destruct (truthy t); cbn [negb]; unfold bindA, logA, retA; (eexists; split; [reflexivity|]; simpl; done).
  - cbn [fst snd delegated_outcome]. unfold bindA, logA, retA, error_response.
    destruct (includes _ _); (eexists; split; [reflexivity|]; simpl; done).
Qed.

Lemma resolve_app_only req a :
  requiresRoute delegatedOnlyRoutes (path req) = false →
  requiresRoute appOnlyRoutes (path req) = true →
  ∃ a', resolveGraphToken post req a
          = (Ok (app_outcome (getAppToken post (resolving req a)).1), a') ∧
        appTokenCache a' = appTokenCache (getAppToken post (resolving req a)).2 ∧
        exchanges a' = exchanges (getAppToken post (resolving req a)).2 ∧
        process a' = process (getAppToken post (resolving req a)).2.
Proof.
  intros H1 H2. unfold resolveGraphToken, try_catchA. rewrite H1, H2.
  unfold bindA at 1, logA at 1. fold (resolving req a). unfold bindA at 1.
  destruct (getAppToken post (resolving req a)) as [[t|e] a1].
  - cbn [fst snd app_outcome]. unfold bindA, logA, retA. (eexists; split; [reflexivity|]; simpl; done).
  - cbn [fst snd app_outcome]. unfold bindA, logA, retA, error_response.
    destruct (includes _ _); (eexists; split; [reflexivity|]; simpl; done).
Qed.

Lemma resolve_other req a :
  requiresRoute delegatedOnlyRoutes (path req) = false →
  requiresRoute appOnlyRoutes (path req) = false →
  ∃ a', resolveGraphToken post req a
          = (Ok (match (getDelegatedToken (tokens req) (process a)).1 with
                 | Ok t =>
                     if truthy t then Next (str t)
                     else app_outcome
                            (getAppToken post
                               (with_process E (getDelegatedToken (tokens req) (process a)).2
                                  (resolving req a))).1
                 | Throw e => error_response e
                 end), a') ∧
        (∀ t, (getDelegatedToken (tokens req) (process a)).1 = Ok t →
              truthy t = true →
              appTokenCache a' = appTokenCache a ∧ exchanges a' = exchanges a).
Proof.
  intros H1 H2. unfold resolveGraphToken, try_catchA.
  rewrite H1, H2.
  unfold bindA at 1, logA at 1. fold (resolving req a).
  unfold bindA at 1, in_process at 1.
  change (process (resolving req a)) with (process a).
  destruct (getDelegatedToken (tokens req) (process a)) as [[t|e] p].
  - cbn [fst snd]. destruct (truthy t) eqn:Ht.
    + unfold bindA, logA, retA. eexists. split; [reflexivity|]. intros; simpl; done.
    + unfold bindA at 1.
      destruct (getAppToken post (with_process E p (resolving req a))) as [[t'|e] a2].
      * cbn [fst snd app_outcome]. unfold bindA, logA, retA. eexists. split; [reflexivity|].
        intros t0 ? ?. simplify_eq. congruence.
      * cbn [fst snd app_outcome]. unfold bindA, logA, retA, error_response.
        destruct (includes _ _); (eexists; split; [reflexivity|]);
          intros t0 ? ?; simplify_eq; congruence.
  - cbn [fst snd]. unfold bindA, logA, retA, error_response.
    destruct (includes _ _); (eexists; split; [reflexivity|]); intros; done.
Qed.

Lemma error_response_status e :
  ∃ status err msg, error_response e = Respond status err msg ∧
                    (status = 401%nat ∨ status = 500%nat).
Proof. unfold error_response. destruct (includes _ _); eexists _, _, _; eauto. Qed.

(** [resolveGraphToken] never throws: whatever [getDelegatedToken] and
    [getAppToken] do, the request is passed on with a token or answered
    with the status 401 or 500. *)
Theorem resolveGraphToken_never_throws req a :
  ∃ out a', resolveGraphToken post req a = (Ok out, a') ∧
            match out with
            | Next _ => True
            | Respond status _ _ => status = 401%nat ∨ status = 500%nat
            end.
Proof.
  destruct (requiresRoute delegatedOnlyRoutes (path req)) eqn:H1.
  - destruct (resolve_delegated req a H1) as (a' & -> & _).
    eexists _, _. split; [reflexivity|].
    destruct (getDelegatedToken (tokens req) (process a)).1 as [t|e]; simpl.
    + destruct (truthy t); simpl; eauto.
    + destruct (error_response_status e) as (? & ? & ? & -> & ?). done.
  - destruct (requiresRoute appOnlyRoutes (path req)) eqn:H2.
    + destruct (resolve_app_only req a H1 H2) as (a' & -> & _).
      eexists _, _. split; [reflexivity|].
      destruct (getAppToken post (resolving req a)).1 as [t|e]; simpl; [done|].
      destruct (error_response_status e) as (? & ? & ? & -> & ?). done.
    + destruct (resolve_other req a H1 H2) as (a' & -> & _).
      eexists _, _. split; [reflexivity|].
      destruct (getDelegatedToken (tokens req) (process a)).1 as [t|e].
      * destruct (truthy t); [done|].
        destruct (getAppToken post _).1 as [t'|e]; simpl; [done|].
        destruct (error_response_status e) as (? & ? & ? & -> & ?). done.
      * destruct (error_response_status e) as (? & ? & ? & -> & ?). done.
Qed.

(** On a route that needs a delegated token, the application token is
    never used nor fetched.  Without access token in the request the
    answer is 401 [Delegated user token required]; the token that
    [getDelegatedToken] returns is passed on; a rejected exchange is
    answered 401 [Token refresh failed], and a cached expiry that is not
    a valid date 500. *)
Theorem delegated_route req a :
  requiresRoute delegatedOnlyRoutes (path req) = true →
  ∃ out a', resolveGraphToken post req a = (Ok out, a') ∧
    appTokenCache a' = appTokenCache a ∧ exchanges a' = exchanges a ∧
    process a' = (getDelegatedToken (tokens req) (process a)).2 ∧
    (truthy (requestAccessToken (tokens req)) = false → out = token_required) ∧
    (∀ t, (getDelegatedToken (tokens req) (process a)).1 = Ok (Some t) → t ≠ "" →
          out = Next t) ∧
    (∀ e, (getDelegatedToken (tokens req) (process a)).1 = Throw e →
          (e = Error "Failed to refresh access token" ∧
           out = Respond 401 "Token refresh failed"
                   "Your refresh token is invalid or expired. Please re-authenticate.") ∨
          (e = Error "Invalid time value" ∧
           out = Respond 500 "Failed to resolve Graph token" "Invalid time value")).
Proof.
  intros H. destruct (resolve_delegated req a H) as (a' & Hr & Hc & Hx & Hp).
  eexists _, a'. split; [exact Hr|]. split; [done|]. split; [done|]. split; [done|].
  split; [|split].
  - intros Hno.
    destruct (getDelegatedToken_none (tokens req) (process a) Hno) as (s' & -> & _).
    done.
  - intros t Ht Hne. rewrite Ht. simpl.
    destruct (String.eqb_spec t ""); done.
  - intros e He. rewrite He. simpl.
    destruct (getDelegatedToken (tokens req) (process a)) as [r s'] eqn:Hg.
    simpl in He. subst r.
    destruct (getDelegatedToken_throws _ _ _ _ Hg) as [->| ->]; [left|right]; done.
Qed.

(** On a route that needs the application token, the tokens of the
    request are not looked at: the cache of user tokens, the file and the
    calls to the token endpoint of users stay as they are, and the
    request is passed on with what [getAppToken] returns, or answered
    with the error it throws. *)
Theorem app_only_route req a :
  requiresRoute delegatedOnlyRoutes (path req) = false →
  requiresRoute appOnlyRoutes (path req) = true →
  ∃ out a', resolveGraphToken post req a = (Ok out, a') ∧
    quiet (process a) (process a') ∧
    out = app_outcome (getAppToken post (resolving req a)).1 ∧
    (∀ tokens', (resolveGraphToken post
                   {| method := method req; path := path req; tokens := tokens' |} a).1
                = Ok out).
Proof.
  intros H1 H2. destruct (resolve_app_only req a H1 H2) as (a' & Hr & _ & _ & Hp).
  eexists _, a'. split; [exact Hr|]. split; [|split; [done|]].
  - rewrite Hp. apply (getAppToken_quiet (resolving req a)).
  - intros tokens'.
    destruct (resolve_app_only {| method := method req; path := path req;
                                  tokens := tokens' |} a H1 H2) as (a'' & -> & _).
    done.
Qed.

Lemma app_token_fresh_world a b :
  appTokenCache b = appTokenCache a → world (process b) = world (process a) →
  app_token_fresh b = app_token_fresh a.
Proof. unfold app_token_fresh. by intros -> ->. Qed.

(** On any other route the delegated token is preferred: the token that
    [getDelegatedToken] returns is passed on and the application token is
    not touched; a request without access token is passed on with the
    application token, here the cached one when it is usable. *)
Theorem other_route req a :
  requiresRoute delegatedOnlyRoutes (path req) = false →
  requiresRoute appOnlyRoutes (path req) = false →
  ∃ out a', resolveGraphToken post req a = (Ok out, a') ∧
    (∀ t, (getDelegatedToken (tokens req) (process a)).1 = Ok (Some t) → t ≠ "" →
          out = Next t ∧ appTokenCache a' = appTokenCache a ∧
          exchanges a' = exchanges a) ∧
    (truthy (requestAccessToken (tokens req)) = false →
     app_token_fresh a = true →
     out = Next (str (app_token (appTokenCache a)))).
Proof.
  intros H1 H2. destruct (resolve_other req a H1 H2) as (a' & Hr & Hc).
  eexists _, a'. split; [exact Hr|]. split.
  - intros t Ht Hne. rewrite Ht. rewrite (truthy_Some _ Hne).
    split; [done|]. apply (Hc (Some t) Ht). by apply truthy_Some.
  - intros Hno Hfresh.
    destruct (getDelegatedToken_none (tokens req) (process a) Hno) as (s' & -> & _ & Hw).
    cbn [fst snd truthy].
    assert (app_token_fresh (with_process E s' (resolving req a)) = true) as Hf.
    { rewrite <- Hfresh. by apply app_token_fresh_world. }
    destruct (getAppToken_fresh_run (with_process E s' (resolving req a)) Hf) as (a2 & -> & _).
    done.
Qed.

End Middleware.

(** ** Further properties of tools.idResolver.js *)

Section Resolver.

Context {E : Env}.
Implicit Types (s : state E).

Lemma new_GraphClient_ok accessToken s :
  accessToken ≠ "" → new_GraphClient accessToken s = (Ok accessToken, s).
Proof.
  intros H. unfold new_GraphClient. by destruct (String.eqb_spec accessToken "").
Qed.

Lemma client_get_ok accessToken p s r w1 :
  graph_get E accessToken p (world s) = (inr r, w1) →
  client_get accessToken p s
    = (Ok r, with_world w1 (record_call (CallGraphGet accessToken p) s)).
Proof. intros H. unfold client_get. simpl. by rewrite H. Qed.

Lemma client_get_fail accessToken p s e w1 :
  graph_get E accessToken p (world s) = (inl e, w1) →
  client_get accessToken p s
    = (Throw e, with_world w1 (record_call (CallGraphGet accessToken p) s)).
Proof. intros H. unfold client_get. simpl. by rewrite H. Qed.

(** Without access token the lookups throw the error of the
    [GraphClient] constructor as it is, before any call: the state is
    left as it was. *)
Theorem lookups_require_token s :
  let e := Error "accessToken is required to initialize GraphClient" in
  (∀ name, findTeamIdByName "" name s = (Throw e, s)) ∧
  (∀ name, findUserId "" name s = (Throw e, s)) ∧
  (∀ c, findMeetingId "" c s = (Throw e, s)) ∧
  (∀ channel team, findChannelIdByName "" channel team s = (Throw e, s)).
Proof. done. Qed.

Lemma find_first {A} (p : A → bool) (l1 l2 : list A) (x : A) :
  (∀ y, y ∈ l1 → p y = false) → p x = true →
  List.find p (l1 ++ x :: l2)%list = Some x.
Proof.
  intros Hno Hx. induction l1 as [|y l1 IH]; simpl.
  - by rewrite Hx.
  - rewrite (Hno y) by left. apply IH. intros z Hz. apply Hno. by right.
Qed.

(** [findTeamIdByName] returns the identifier of the first of the
    caller's teams whose name equals the name asked for, letter case
    apart, and then asks nothing else. *)
Theorem findTeamIdByName_first_joined accessToken name s teams w1
    (l1 : list resource) t l2 d :
  accessToken ≠ "" →
  graph_get E accessToken "/me/joinedTeams" (world s) = (inr teams, w1) →
  value teams = Some (l1 ++ t :: l2)%list →
  (∀ x, x ∈ l1 → sameDisplayName name x = false) →
  displayName t = Some d → toLowerCase d = toLowerCase name →
  ∃ s', findTeamIdByName accessToken name s = (Ok (Some (id t)), s') ∧
        calls s' = (calls s ++ [CallGraphGet accessToken "/me/joinedTeams"])%list.
Proof.
  intros Htok Hget Hv Hno Hd Heq.
  unfold findTeamIdByName, bind at 1. rewrite (new_GraphClient_ok _ _ Htok).
  unfold try_catch, bind at 1. rewrite (client_get_ok _ _ _ _ _ Hget).
  unfold findIn. rewrite Hv, (find_first _ l1 l2 t Hno).
  - eexists. split; [reflexivity|]. done.
  - unfold sameDisplayName. rewrite Hd, Heq. apply String.eqb_refl.
Qed.

(** When none of the caller's teams has the name, [findTeamIdByName]
    looks in the listing of all teams; a failure of that listing is
    swallowed and gives [null].  A failure of the listing of the caller's
    teams is thrown as [Failed to find team: ...]. *)
Theorem findTeamIdByName_fallback accessToken name s :
  accessToken ≠ "" →
  (∀ teams w1,
     graph_get E accessToken "/me/joinedTeams" (world s) = (inr teams, w1) →
     findIn (sameDisplayName name) teams = None →
     (∀ e w2, graph_get E accessToken "/teams" w1 = (inl e, w2) →
              (findTeamIdByName accessToken name s).1 = Ok None) ∧
     (∀ allTeams w2, graph_get E accessToken "/teams" w1 = (inr allTeams, w2) →
              (findTeamIdByName accessToken name s).1
                = Ok (findIn (sameDisplayName name) allTeams))) ∧
  (∀ e w1,
     graph_get E accessToken "/me/joinedTeams" (world s) = (inl e, w1) →
     ∃ s', findTeamIdByName accessToken name s
             = (Throw (Error ("Failed to find team: " ++ message e)), s') ∧
           calls s' = (calls s ++ [CallGraphGet accessToken "/me/joinedTeams"])%list).
Proof.
  intros Htok. split.
  - intros teams w1 Hget Hnone.
    assert (∀ r, graph_get E accessToken "/teams" w1 = r →
                 (findTeamIdByName accessToken name s).1
                   = match r.1 with
                     | inr allTeams => Ok (findIn (sameDisplayName name) allTeams)
                     | inl _ => Ok None
                     end) as Hcase.
    { intros r Hr. unfold findTeamIdByName, bind at 1.
      rewrite (new_GraphClient_ok _ _ Htok).
      unfold try_catch at 1, bind at 1. rewrite (client_get_ok _ _ _ _ _ Hget), Hnone.
      unfold try_catch, bind, client_get, ret. simpl. rewrite Hr.
      destruct r as [[e|allTeams] w2]; done. }
    split.
    + intros e w2 H2. by rewrite (Hcase _ H2).
    + intros allTeams w2 H2. by rewrite (Hcase _ H2).
  - intros e w1 Hget.
    unfold findTeamIdByName, bind at 1. rewrite (new_GraphClient_ok _ _ Htok).
    unfold try_catch, bind at 1. rewrite (client_get_fail _ _ _ _ _ Hget).
    unfold throw. eexists. split; [reflexivity|]. done.
Qed.

Lemma usersByDisplayName_run accessToken emailOrName s users w1 :
  graph_get E accessToken (displayNameQuery emailOrName) (world s) = (inr users, w1) →
  (∀ u rest, value users = Some (u :: rest) →
     ∃ s', usersByDisplayName accessToken emailOrName s = (Ok (Some (id u)), s') ∧
           calls s' = (calls s
                       ++ [CallGraphGet accessToken (displayNameQuery emailOrName)])%list) ∧
  (firstId users = None →
   (∀ e w2,
      graph_get E accessToken (directRequest emailOrName) w1 = (inl e, w2) →
      ∃ s', usersByDisplayName accessToken emailOrName s = (Ok None, s') ∧
            calls s' = (calls s
                        ++ [CallGraphGet accessToken (displayNameQuery emailOrName);
                            CallGraphGet accessToken (directRequest emailOrName)])%list) ∧
   (∀ user w2,
      graph_get E accessToken (directRequest emailOrName) w1 = (inr user, w2) →
      ∃ s', usersByDisplayName accessToken emailOrName s = (Ok (resp_id user), s') ∧
            calls s' = (calls s
                        ++ [CallGraphGet accessToken (displayNameQuery emailOrName);
                            CallGraphGet accessToken (directRequest emailOrName)])%list)).
Proof.
  intros Hget. split; [|intros Hnone; split].
  - intros u rest Hv. unfold usersByDisplayName, bind at 1.
    fold (displayNameQuery emailOrName). rewrite (client_get_ok _ _ _ _ _ Hget).
    unfold firstId. rewrite Hv. eexists. split; [reflexivity|]. done.
  - intros e w2 Hget2. unfold usersByDisplayName, bind at 1.
    fold (displayNameQuery emailOrName). rewrite (client_get_ok _ _ _ _ _ Hget), Hnone.
    unfold try_catch, bind. fold (directRequest emailOrName).
    rewrite (client_get_fail _ _ _ e w2) by exact Hget2.
    eexists. split; [reflexivity|]. simpl. by rewrite <- app_assoc.
  - intros user w2 Hget2. unfold usersByDisplayName, bind at 1.
    fold (displayNameQuery emailOrName). rewrite (client_get_ok _ _ _ _ _ Hget), Hnone.
    unfold try_catch, bind. fold (directRequest emailOrName).
    rewrite (client_get_ok _ _ _ user w2) by exact Hget2.
    eexists. split; [reflexivity|]. simpl. by rewrite <- app_assoc.
Qed.

Lemma findUserId_by_name accessToken emailOrName s :
  accessToken ≠ "" → includes "@" emailOrName = false →
  ∀ r s', usersByDisplayName accessToken emailOrName s = (Ok r, s') →
          findUserId accessToken emailOrName s = (Ok r, s').
Proof.
  intros Htok Hat r s' H.
  unfold findUserId, bind at 1. rewrite (new_GraphClient_ok _ _ Htok).
  unfold try_catch. by rewrite Hat, H.
Qed.

Lemma findUserId_by_mail_none accessToken emailOrName s users w1 :
  accessToken ≠ "" → includes "@" emailOrName = true →
  graph_get E accessToken (mailQuery emailOrName) (world s) = (inr users, w1) →
  firstId users = None →
  ∀ r s', usersByDisplayName accessToken emailOrName
            (with_world w1 (record_call (CallGraphGet accessToken (mailQuery emailOrName)) s))
          = (Ok r, s') →
          findUserId accessToken emailOrName s = (Ok r, s').
Proof.
  intros Htok Hat Hget Hnone r s' H.
  unfold findUserId, bind at 1. rewrite (new_GraphClient_ok _ _ Htok).
  unfold try_catch. rewrite Hat. unfold bind at 1.
  fold (mailQuery emailOrName). rewrite (client_get_ok _ _ _ _ _ Hget), Hnone.
  by rewrite H.
Qed.

(** [findUserId] asks by mail only when the input holds an [@], and the
    first user of a non-empty answer wins at once.  When the query by
    mail gives no user, and when the input holds no [@], it asks by
    display name, where the first user wins too; when that query gives
    no user either, the user is requested directly: the identifier of
    the answer is returned, and a failure of that request is swallowed
    and gives [null]. *)
Theorem findUserId_strategies accessToken emailOrName s :
  accessToken ≠ "" →
  let mail := CallGraphGet accessToken (mailQuery emailOrName) in
  let name := CallGraphGet accessToken (displayNameQuery emailOrName) in
  let direct := CallGraphGet accessToken (directRequest emailOrName) in
  (includes "@" emailOrName = true →
   ∀ users w1,
     graph_get E accessToken (mailQuery emailOrName) (world s) = (inr users, w1) →
     (∀ u rest, value users = Some (u :: rest) →
        ∃ s', findUserId accessToken emailOrName s = (Ok (Some (id u)), s') ∧
              calls s' = (calls s ++ [mail])%list) ∧
     (firstId users = None →
      ∀ users2 w2,
        graph_get E accessToken (displayNameQuery emailOrName) w1 = (inr users2, w2) →
        (∀ u rest, value users2 = Some (u :: rest) →
           ∃ s', findUserId accessToken emailOrName s = (Ok (Some (id u)), s') ∧
                 calls s' = (calls s ++ [mail; name])%list) ∧
        (firstId users2 = None →
         (∀ e w3,
            graph_get E accessToken (directRequest emailOrName) w2 = (inl e, w3) →
            ∃ s', findUserId accessToken emailOrName s = (Ok None, s') ∧
                  calls s' = (calls s ++ [mail; name; direct])%list) ∧
         (∀ user w3,
            graph_get E accessToken (directRequest emailOrName) w2 = (inr user, w3) →
            ∃ s', findUserId accessToken emailOrName s = (Ok (resp_id user), s') ∧
                  calls s' = (calls s ++ [mail; name; direct])%list)))) ∧
  (includes "@" emailOrName = false →
   ∀ users w1,
     graph_get E accessToken (displayNameQuery emailOrName) (world s) = (inr users, w1) →
     (∀ u rest, value users = Some (u :: rest) →
        ∃ s', findUserId accessToken emailOrName s = (Ok (Some (id u)), s') ∧
              calls s' = (calls s ++ [name])%list) ∧
     (firstId users = None →
      (∀ e w2,
         graph_get E accessToken (directRequest emailOrName) w1 = (inl e, w2) →
         ∃ s', findUserId accessToken emailOrName s = (Ok None, s') ∧
               calls s' = (calls s ++ [name; direct])%list) ∧
      (∀ user w2,
         graph_get E accessToken (directRequest emailOrName) w1 = (inr user, w2) →
         ∃ s', findUserId accessToken emailOrName s = (Ok (resp_id user), s') ∧
               calls s' = (calls s ++ [name; direct])%list))).
Proof.
  intros Htok mail name direct. split.
  - intros Hat users w1 Hget. split.
    + intros u rest Hv.
      unfold findUserId, bind at 1. rewrite (new_GraphClient_ok _ _ Htok).
      unfold try_catch. rewrite Hat. unfold bind at 1.
      fold (mailQuery emailOrName). rewrite (client_get_ok _ _ _ _ _ Hget).
      unfold firstId. rewrite Hv. eexists. split; [reflexivity|]. done.
    + intros Hnone users2 w2 Hget2.
      set (s1 := with_world w1 (record_call mail s)).
      destruct (usersByDisplayName_run accessToken emailOrName s1 users2 w2 Hget2)
        as [Hfirst Hrest].
      assert (∀ l, (calls s1 ++ l)%list = (calls s ++ mail :: l)%list) as Hcalls.
      { intros l. subst s1. simpl. by rewrite <- app_assoc. }
      split; [|intros Hnone2; destruct (Hrest Hnone2) as [Hfail Hok]; split].
      * intros u rest Hv. destruct (Hfirst u rest Hv) as (s' & Hrun & Hc).
        exists s'. split; [by eapply findUserId_by_mail_none|].
        by rewrite Hc, Hcalls.
      * intros e w3 Hget3. destruct (Hfail e w3 Hget3) as (s' & Hrun & Hc).
        exists s'. split; [by eapply findUserId_by_mail_none|].
        by rewrite Hc, Hcalls.
      * intros user w3 Hget3. destruct (Hok user w3 Hget3) as (s' & Hrun & Hc).
        exists s'. split; [by eapply findUserId_by_mail_none|].
        by rewrite Hc, Hcalls.
  - intros Hat users w1 Hget.
    destruct (usersByDisplayName_run accessToken emailOrName s users w1 Hget)
      as [Hfirst Hrest].
    split; [|intros Hnone; destruct (Hrest Hnone) as [Hfail Hok]; split].
    + intros u rest Hv. destruct (Hfirst u rest Hv) as (s' & Hrun & Hc).
      exists s'. split; [by apply findUserId_by_name|done].
    + intros e w2 Hget2. destruct (Hfail e w2 Hget2) as (s' & Hrun & Hc).
      exists s'. split; [by apply findUserId_by_name|done].
    + intros user w2 Hget2. destruct (Hok user w2 Hget2) as (s' & Hrun & Hc).
      exists s'. split; [by apply findUserId_by_name|done].
Qed.

(** A failure of the first request of [findUserId] is thrown as
    [Failed to find user: ...]. *)
Theorem findUserId_failure accessToken emailOrName s e w1 :
  accessToken ≠ "" →
  graph_get E accessToken
    (if includes "@" emailOrName then mailQuery emailOrName
     else displayNameQuery emailOrName) (world s) = (inl e, w1) →
  (findUserId accessToken emailOrName s).1
    = Throw (Error ("Failed to find user: " ++ message e)).
Proof.
  intros Htok Hget.
  unfold findUserId, bind at 1. rewrite (new_GraphClient_ok _ _ Htok).
  unfold try_catch. destruct (includes "@" emailOrName).
  - unfold bind at 1. fold (mailQuery emailOrName).
    by rewrite (client_get_fail _ _ _ _ _ Hget).
  - unfold usersByDisplayName, bind at 1. fold (displayNameQuery emailOrName).
    by rewrite (client_get_fail _ _ _ _ _ Hget).
Qed.

(** [findChannelIdByName] with the identifier of a team lists the
    channels of that team without looking the team up, and pairs the
    channel found with the team; with the name of a team that is not
    found it throws [Team not found: ...] and lists no channels. *)
Theorem findChannelIdByName_team accessToken channel team s :
  accessToken ≠ "" →
  (matchesGuid team = true →
   ∀ channels w1,
     graph_get E accessToken ("/teams/" ++ team ++ "/channels") (world s)
       = (inr channels, w1) →
     ∃ s', findChannelIdByName accessToken channel team s
             = (Ok ((λ i, {| channelId := i; teamId := Some team |})
                      <$> findIn (sameDisplayName channel) channels), s') ∧
           calls s' = (calls s ++ [CallGraphGet accessToken
                                     ("/teams/" ++ team ++ "/channels")])%list) ∧
  (matchesGuid team = false →
   ∀ found s1,
     findTeamIdByName accessToken team s = (Ok found, s1) → truthy found = false →
     findChannelIdByName accessToken channel team s
       = (Throw (Error ("Team not found: " ++ team)), s1)).
Proof.
  intros Htok. split.
  - intros Hguid channels w1 Hget.
    unfold findChannelIdByName, bind at 1. rewrite (new_GraphClient_ok _ _ Htok).
    rewrite Hguid. cbn [negb]. unfold bind at 1, ret at 1.
    unfold try_catch, bind at 1. rewrite (client_get_ok _ _ _ _ _ Hget).
    eexists. split; [reflexivity|]. done.
  - intros Hguid found s1 Hfind Hno.
    unfold findChannelIdByName, bind at 1. rewrite (new_GraphClient_ok _ _ Htok).
    rewrite Hguid. cbn [negb]. unfold bind at 1, bind at 1. rewrite Hfind, Hno.
    done.
Qed.

(** [resolveChannelId] with the identifier of a channel never returns
    [null]: it returns the identifier with whatever [resolveTeamId] gives
    for the team, [null] included when the team is not found. *)
Theorem resolveChannelId_of_identifier accessToken channel team s r s1 :
  canonical_shape channel → team ≠ "" →
  resolveTeamId accessToken (Some team) s = (Ok r, s1) →
  resolveChannelId accessToken (Some channel) (Some team) s
    = (Ok (Some {| channelId := channel; teamId := r |}), s1).
Proof.
  intros Hshape Hteam Hres. apply matchesGuid_shape in Hshape.
  unfold resolveChannelId.
  rewrite (truthy_Some _ (matchesGuid_nonempty _ Hshape)), (truthy_Some _ Hteam).
  cbn [negb]. change (str (Some channel)) with channel. rewrite Hshape.
  unfold bind. rewrite Hres. done.
Qed.

(** With an empty listing [findMeetingId] returns [null] at once: the
    organizer is not looked up. *)
Theorem findMeetingId_empty_listing accessToken c s meetings w1 :
  accessToken ≠ "" →
  graph_get E accessToken "/me/onlineMeetings" (world s) = (inr meetings, w1) →
  default [] (value meetings) = [] →
  findMeetingId accessToken c s = (Ok None, after_listing accessToken w1 s).
Proof.
  intros Htok Hget Hv.
  unfold findMeetingId, bind at 1. rewrite (new_GraphClient_ok _ _ Htok).
  unfold try_catch, bind at 1. rewrite (client_get_ok _ _ _ _ _ Hget).
  fold (after_listing accessToken w1 s).
  destruct (value meetings) as [[|m l]|]; simplify_eq/=; done.
Qed.

(** The errors of [findMeetingId]: a failure of the listing, and a
    failure of the lookup of the organizer, are thrown as
    [Failed to find meeting: ...]. *)
Theorem findMeetingId_failure accessToken c s :
  accessToken ≠ "" →
  (∀ e w1,
     graph_get E accessToken "/me/onlineMeetings" (world s) = (inl e, w1) →
     (findMeetingId accessToken c s).1
       = Throw (Error ("Failed to find meeting: " ++ message e))) ∧
  (∀ meetings w1 e s2,
     graph_get E accessToken "/me/onlineMeetings" (world s) = (inr meetings, w1) →
     default [] (value meetings) ≠ [] →
     truthy (organizerEmail c) = true →
     findUserId accessToken (str (organizerEmail c)) (after_listing accessToken w1 s)
       = (Throw e, s2) →
     findMeetingId accessToken c s
       = (Throw (Error ("Failed to find meeting: " ++ message e)), s2)).
Proof.
  intros Htok. split.
  - intros e w1 Hget.
    unfold findMeetingId, bind at 1. rewrite (new_GraphClient_ok _ _ Htok).
    unfold try_catch, bind at 1. by rewrite (client_get_fail _ _ _ _ _ Hget).
  - intros meetings w1 e s2 Hget Hv He Hfind.
    unfold findMeetingId, bind at 1. rewrite (new_GraphClient_ok _ _ Htok).
    unfold try_catch, bind at 1. rewrite (client_get_ok _ _ _ _ _ Hget).
    fold (after_listing accessToken w1 s).
    destruct (value meetings) as [[|m l]|]; [done| |done].
    rewrite He. unfold bind at 1, bind at 1. rewrite Hfind. done.
Qed.

Lemma sort_insert_head x (l : list resource) :
  head (sort_insert mostRecentFirst x l)
    = Some (match head l with
            | Some y => if startOrEpoch y <=? startOrEpoch x then x else y
            | None => x
            end).
Proof.
  destruct l as [|y l]; [done|]. simpl. unfold mostRecentFirst.
  destruct (startOrEpoch y - startOrEpoch x <=? 0) eqn:H1;
    destruct (startOrEpoch y <=? startOrEpoch x) eqn:H2; try done.
  - apply Z.leb_le in H1. apply Z.leb_gt in H2. lia.
  - apply Z.leb_gt in H1. apply Z.leb_le in H2. lia.
Qed.

(** The head of the sorted list is the first, in the order of the
    listing, of the meetings that start latest. *)
Lemma js_sort_head_first (l : list resource) m :
  head (js_sort mostRecentFirst l) = Some m →
  ∃ l1 l2, l = (l1 ++ m :: l2)%list ∧
           (∀ x, x ∈ l1 → startOrEpoch x < startOrEpoch m) ∧
           (∀ x, x ∈ l2 → startOrEpoch x ≤ startOrEpoch m).
Proof.
  revert m. induction l as [|x l IH]; intros m H; [done|].
  simpl in H. rewrite sort_insert_head in H.
  destruct (head (js_sort mostRecentFirst l)) as [y|] eqn:Hy.
  - destruct (IH y eq_refl) as (l1 & l2 & -> & H1 & H2).
    destruct (startOrEpoch y <=? startOrEpoch x) eqn:Hle; simplify_eq.
    + apply Z.leb_le in Hle. exists [], (l1 ++ y :: l2)%list.
      split; [done|]. split; [intros z Hz; by apply elem_of_nil in Hz|].
      intros z Hz. apply elem_of_app in Hz as [Hz|Hz].
      * specialize (H1 z Hz). lia.
      * apply elem_of_cons in Hz as [->|Hz]; [done|]. specialize (H2 z Hz). lia.
    + apply Z.leb_gt in Hle. exists (x :: l1), l2.
      split; [done|]. split; [|done].
      intros z Hz. apply elem_of_cons in Hz as [->|Hz]; [done|]. by apply H1.
  - simplify_eq. destruct l as [|y l].
    + exists [], []. split; [done|]. split; intros z Hz; by apply elem_of_nil in Hz.
    + exfalso. pose proof (js_sort_perm mostRecentFirst (y :: l)) as Hp.
      destruct (js_sort mostRecentFirst (y :: l)); [|done].
      by apply Permutation_nil_cons in Hp.
Qed.

(** Among the meetings that pass the criteria, [findMeetingId] returns
    the one that starts latest, a meeting without start time counting as
    starting at the epoch; of several that start latest, the first in the
    order of the listing. *)
Theorem findMeetingId_first_latest accessToken c s meetings w1 organizerId s2 m :
  accessToken ≠ "" →
  graph_get E accessToken "/me/onlineMeetings" (world s) = (inr meetings, w1) →
  (truthy (organizerEmail c) = true →
   findUserId accessToken (str (organizerEmail c)) (after_listing accessToken w1 s)
     = (Ok organizerId, s2)) →
  head (js_sort mostRecentFirst (survivors c organizerId (default [] (value meetings))))
    = Some m →
  (findMeetingId accessToken c s).1 = Ok (Some (id m)) ∧
  ∃ l1 l2,
    survivors c organizerId (default [] (value meetings)) = (l1 ++ m :: l2)%list ∧
    (∀ x, x ∈ l1 → startOrEpoch x < startOrEpoch m) ∧
    (∀ x, x ∈ l2 → startOrEpoch x ≤ startOrEpoch m).
Proof.
  intros Htok Hget Horg Hm.
  rewrite (findMeetingId_run accessToken c s meetings w1 organizerId s2 Htok Hget Horg).
  rewrite Hm. split; [done|]. by apply js_sort_head_first.
Qed.

End Resolver.

(** ** The further properties on the scenarios *)

Lemma getDelegatedToken_null_iff_witness :
  quiet (start_valid ∅) (getDelegatedToken anonymous (start_valid ∅)).2.
Proof.
  destruct (getDelegatedToken_null_iff anonymous (start_valid ∅) None
              (getDelegatedToken anonymous (start_valid ∅)).2) as [_ H].
  - vm_compute; reflexivity.
  - apply H. reflexivity.
Defined.

Lemma cached_token_wins_witness :
  ∃ s', getDelegatedToken (bearer "h.p.s" None) (start_expired [] {["u" := cached_u]})
        = (Ok (Some "old"), s') ∧
        quiet (start_expired [] {["u" := cached_u]}) s'.
Proof.
  apply (cached_token_wins (bearer "h.p.s" None) (start_expired [] {["u" := cached_u]})
           "h.p.s" cached_u t0 0%nat).
  - vm_compute; reflexivity.
  - discriminate.
  - vm_compute; reflexivity.
  - vm_compute; reflexivity.
  - vm_compute; reflexivity.
  - vm_compute; reflexivity.
  - vm_compute; reflexivity.
Defined.

Lemma stale_record_refreshed_witness :
  ∃ s', getDelegatedToken (bearer "h.p.s" (Some "r"))
          (start_lasting [Some (answer "A1")] {["u" := stale_u]})
        = (Ok (Some "A1"), s') ∧
        calls s' = [CallTokenEndpoint "r"].
Proof.
  destruct (stale_record_refreshed (bearer "h.p.s" (Some "r"))
              (start_lasting [Some (answer "A1")] {["u" := stale_u]})
              "h.p.s" stale_u t0 0%nat) as (_ & Hok & _).
  - vm_compute; reflexivity.
  - discriminate.
  - vm_compute; reflexivity.
  - vm_compute; reflexivity.
  - vm_compute; reflexivity.
  - vm_compute; reflexivity.
  - vm_compute; discriminate.
  - vm_compute; reflexivity.
  - destruct (Hok (answer "A1") 1%nat t0 1%nat) as (s' & Hrun & _ & Hcalls).
    + vm_compute; reflexivity.
    + vm_compute; reflexivity.
    + exists s'. split; [exact Hrun|]. rewrite Hcalls. vm_compute; reflexivity.
Defined.

Lemma getDelegatedToken_other_identities_witness :
  userTokenCache (getDelegatedToken (bearer "h.p.s" (Some "r"))
                    (start_valid {["v" := cached_u]})).2 !! "v"
  = userTokenCache (start_valid {["v" := cached_u]}) !! "v".
Proof.
  apply (getDelegatedToken_other_identities (bearer "h.p.s" (Some "r"))
           (start_valid {["v" := cached_u]}) "v").
  vm_compute; discriminate.
Defined.

Lemma invalid_cached_expiry_throws_witness :
  ∃ s', getDelegatedToken (bearer "h.p.s" None) (start_valid {["u" := invalid_u]})
        = (Throw (Error "Invalid time value"), s') ∧
        quiet (start_valid {["u" := invalid_u]}) s'.
Proof.
  apply (invalid_cached_expiry_throws (bearer "h.p.s" None)
           (start_valid {["u" := invalid_u]}) "h.p.s" invalid_u).
  - vm_compute; reflexivity.
  - discriminate.
  - vm_compute; reflexivity.
  - vm_compute; reflexivity.
  - vm_compute; reflexivity.
Defined.

Lemma cache_written_through_witness :
  in_sync (getDelegatedToken (bearer "h.p.s" (Some "r")) start_synced).2.
Proof.
  destruct (cache_written_through (E:=env_valid)) as [H _].
  - intros w. reflexivity.
  - apply H.
    + vm_compute; reflexivity.
    + vm_compute; reflexivity.
Defined.

Lemma requestAccessToken_sources_witness :
  requestAccessToken (bearer "h.p.s" (Some "r")) = Some "h.p.s".
Proof.
  destruct (requestAccessToken_sources "h.p.s" (Some "r") None) as [H _].
  apply H. discriminate.
Defined.

Lemma cleared_token_not_served_witness :
  (getDelegatedToken (bearer "h.p.s" None)
     (clearUserToken "h.p.s" (start_expired [] {["u" := cached_u]})).2).1
  = Ok (Some "h.p.s").
Proof.
  destruct (cleared_token_not_served "h.p.s" (bearer "h.p.s" None)
              (start_expired [] {["u" := cached_u]})) as [H _].
  - vm_compute; reflexivity.
  - discriminate.
  - vm_compute; reflexivity.
  - exact H.
Defined.

Lemma undecodable_tokens_share_entry_witness :
  (getDelegatedToken (bearer "rubbish" None)
     (getDelegatedToken (bearer "garbage" (Some "r")) (start_valid ∅)).2).1
  = Ok (Some "garbage").
Proof.
  destruct (undecodable_tokens_share_entry (E:=env_valid) t0
              (bearer "garbage" (Some "r")) (bearer "rubbish" None) (start_valid ∅)
              "garbage" "rubbish") as [_ H].
  - intros w. reflexivity.
  - vm_compute; reflexivity.
  - vm_compute; reflexivity.
  - vm_compute; reflexivity.
  - vm_compute; reflexivity.
  - discriminate.
  - vm_compute; reflexivity.
  - vm_compute; reflexivity.
  - discriminate.
  - vm_compute; reflexivity.
  - exact H.
Defined.

Lemma getDelegatedToken_errors_witness :
  Error "Failed to refresh access token" = Error "Failed to refresh access token" ∨
  Error "Failed to refresh access token" = Error "Invalid time value".
Proof.
  apply (getDelegatedToken_errors (bearer "h.p.s" (Some "bad"))
           (start_expired [None] ∅) (Error "Failed to refresh access token")
           (getDelegatedToken (bearer "h.p.s" (Some "bad")) (start_expired [None] ∅)).2).
  vm_compute; reflexivity.
Defined.

Lemma getAppToken_cached_witness :
  ∃ a', getAppToken (E:=env_valid) (app_endpoint (inl (Error "unreachable")))
          (app_start app_token_cached) = (Ok "APP", a') ∧
        exchanges a' = 0%nat.
Proof.
  destruct (getAppToken_cached (E:=env_valid) (app_endpoint (inl (Error "unreachable")))
              (app_start app_token_cached)) as (a' & Hrun & _ & Hx & _).
  - vm_compute; reflexivity.
  - exists a'. split; [exact Hrun|exact Hx].
Defined.

Lemma getAppToken_exchange_witness :
  ∃ a', getAppToken (E:=env_valid) (app_endpoint (inr (answer "APP2")))
          (app_start no_app_token) = (Ok "APP2", a') ∧
        appTokenCache a' = {| app_token := Some "APP2"; app_expiresAt := 1700003540000 |}.
Proof.
  destruct (getAppToken_exchange (E:=env_valid) (app_endpoint (inr (answer "APP2")))
              (app_start no_app_token)) as [Hok _].
  - vm_compute; reflexivity.
  - destruct (Hok (answer "APP2") 0%nat t0 0%nat) as (a' & Hrun & Hc & _).
    + vm_compute; reflexivity.
    + vm_compute; reflexivity.
    + exists a'. split; [exact Hrun|]. rewrite Hc. vm_compute; reflexivity.
Defined.

Lemma getAppToken_twice_witness :
  ∃ a2, getAppToken (E:=env_valid) (app_endpoint (inr (answer "APP2")))
          (getAppToken (E:=env_valid) (app_endpoint (inr (answer "APP2")))
             (app_start no_app_token)).2 = (Ok "APP2", a2) ∧
        exchanges a2 = 1%nat.
Proof.
  destruct (getAppToken_twice (E:=env_valid) (app_endpoint (inr (answer "APP2"))) t0
              (app_start no_app_token) "APP2"
              (getAppToken (E:=env_valid) (app_endpoint (inr (answer "APP2")))
                 (app_start no_app_token)).2) as (a2 & Hrun & Hx).
  - intros w. reflexivity.
  - intros w resp w1 H. injection H as <- _. split; [discriminate|vm_compute; reflexivity].
  - vm_compute; reflexivity.
  - exists a2. split; [exact Hrun|]. rewrite Hx. vm_compute; reflexivity.
Defined.

Lemma delegated_route_witness :
  (resolveGraphToken (E:=env_valid) (app_endpoint (inr (answer "APP2")))
     (route "/api/discovery/me" anonymous) (app_start app_token_cached)).1
  = Ok token_required.
Proof.
  destruct (delegated_route (E:=env_valid) (app_endpoint (inr (answer "APP2")))
              (route "/api/discovery/me" anonymous) (app_start app_token_cached))
    as (out & a' & Hrun & _ & _ & _ & Hno & _).
  - vm_compute; reflexivity.
  - rewrite Hrun. rewrite Hno; [reflexivity|]. vm_compute; reflexivity.
Defined.

Lemma app_only_route_witness :
  (resolveGraphToken (E:=env_valid) (app_endpoint (inr (answer "APP2")))
     (route "/api/admin/users" (bearer "h.p.s" (Some "r"))) (app_start app_token_cached)).1
  = Ok (Next "APP").
Proof.
  destruct (app_only_route (E:=env_valid) (app_endpoint (inr (answer "APP2")))
              (route "/api/admin/users" (bearer "h.p.s" (Some "r")))
              (app_start app_token_cached))
    as (out & a' & Hrun & _ & Hout & _).
  - vm_compute; reflexivity.
  - vm_compute; reflexivity.
  - rewrite Hrun, Hout. vm_compute; reflexivity.
Defined.

Lemma other_route_witness :
  (resolveGraphToken (E:=env_valid) (app_endpoint (inr (answer "APP2")))
     (route "/api/teams/create" anonymous) (app_start app_token_cached)).1
  = Ok (Next "APP").
Proof.
  destruct (other_route (E:=env_valid) (app_endpoint (inr (answer "APP2")))
              (route "/api/teams/create" anonymous) (app_start app_token_cached))
    as (out & a' & Hrun & _ & Hno).
  - vm_compute; reflexivity.
  - vm_compute; reflexivity.
  - rewrite Hrun. rewrite Hno; [reflexivity| |]; vm_compute; reflexivity.
Defined.

Lemma findTeamIdByName_first_joined_witness :
  ∃ s', findTeamIdByName "token" "project falcon" start_teams = (Ok (Some "t2"), s') ∧
        calls s' = [CallGraphGet "token" "/me/joinedTeams"].
Proof.
  apply (findTeamIdByName_first_joined (E:=env_teams) "token" "project falcon" start_teams
           {| value := Some [team "t1" "Design"; team "t2" "PROJECT FALCON"];
              resp_id := None |} 0%nat
           [team "t1" "Design"] (team "t2" "PROJECT FALCON") [] "PROJECT FALCON").
  - discriminate.
  - vm_compute; reflexivity.
  - reflexivity.
  - intros x Hx. apply list_elem_of_singleton in Hx as ->. vm_compute; reflexivity.
  - reflexivity.
  - vm_compute; reflexivity.
Defined.

Lemma findTeamIdByName_fallback_witness :
  (findTeamIdByName "token" "Unknown" start_teams).1 = Ok None.
Proof.
  destruct (findTeamIdByName_fallback (E:=env_teams) "token" "Unknown" start_teams)
    as [H _].
  - discriminate.
  - destruct (H {| value := Some [team "t1" "Design"; team "t2" "PROJECT FALCON"];
                   resp_id := None |} 0%nat) as [Hnull _].
    + vm_compute; reflexivity.
    + vm_compute; reflexivity.
    + apply (Hnull (Error "Request failed with status code 403") 0%nat).
      vm_compute; reflexivity.
Defined.

Lemma findUserId_strategies_witness :
  (∃ s', findUserId "token" "ada@example.com" start_users = (Ok (Some "u1"), s') ∧
         calls s' = [CallGraphGet "token" (mailQuery "ada@example.com")]) ∧
  (∃ s', findUserId "token" "nobody@example.com" start_meetings = (Ok None, s') ∧
         calls s' = [CallGraphGet "token" (mailQuery "nobody@example.com");
                     CallGraphGet "token" (displayNameQuery "nobody@example.com");
                     CallGraphGet "token" (directRequest "nobody@example.com")]).
Proof.
  split.
  - destruct (findUserId_strategies (E:=env_users) "token" "ada@example.com" start_users)
      as [H _].
    + discriminate.
    + destruct (H eq_refl {| value := Some [team "u1" "Ada"]; resp_id := None |} 0%nat)
        as [H1 _].
      * vm_compute; reflexivity.
      * apply (H1 (team "u1" "Ada") []). reflexivity.
  - destruct (findUserId_strategies (E:=env_meetings) "token" "nobody@example.com"
                start_meetings) as [H _].
    + discriminate.
    + destruct (H eq_refl {| value := Some []; resp_id := None |} 0%nat) as [_ H1].
      * vm_compute; reflexivity.
      * destruct (H1 eq_refl {| value := Some []; resp_id := None |} 0%nat) as [_ H2].
        -- vm_compute; reflexivity.
        -- destruct (H2 eq_refl) as [H3 _].
           apply (H3 (Error "Request failed with status code 404") 0%nat).
           vm_compute; reflexivity.
Defined.

Lemma findUserId_failure_witness :
  (findUserId "token" "Ada" (start_valid ∅)).1
  = Throw (Error "Failed to find user: Request failed with status code 404").
Proof.
  apply (findUserId_failure (E:=env_valid) "token" "Ada" (start_valid ∅)
           (Error "Request failed with status code 404") 0%nat).
  - discriminate.
  - vm_compute; reflexivity.
Defined.

Lemma findChannelIdByName_team_witness :
  ∃ s', findChannelIdByName "token" "releases" guid start_teams
        = (Ok (Some {| channelId := "c2"; teamId := Some guid |}), s') ∧
        calls s' = [CallGraphGet "token" ("/teams/" ++ guid ++ "/channels")].
Proof.
  destruct (findChannelIdByName_team (E:=env_teams) "token" "releases" guid start_teams)
    as [H _].
  - discriminate.
  - destruct (H eq_refl {| value := Some [team "c1" "General"; team "c2" "Releases"];
                           resp_id := None |} 0%nat) as (s' & Hrun & Hcalls).
    + vm_compute; reflexivity.
    + exists s'. split; [rewrite Hrun; vm_compute; reflexivity|exact Hcalls].
Defined.

Lemma resolveChannelId_of_identifier_witness :
  (resolveChannelId "token" (Some guid) (Some "Unknown") start_teams).1
  = Ok (Some {| channelId := guid; teamId := None |}).
Proof.
  rewrite (resolveChannelId_of_identifier (E:=env_teams) "token" guid "Unknown" start_teams
             None (resolveTeamId "token" (Some "Unknown") start_teams).2).
  - reflexivity.
  - apply matchesGuid_shape. vm_compute; reflexivity.
  - discriminate.
  - vm_compute; reflexivity.
Defined.

Lemma findMeetingId_empty_listing_witness :
  findMeetingId "token" (by_organizer "ada@example.com") start_no_meetings
  = (Ok None, after_listing (E:=env_no_meetings) "token" 0%nat start_no_meetings).
Proof.
  apply (findMeetingId_empty_listing (E:=env_no_meetings) "token"
           (by_organizer "ada@example.com") start_no_meetings
           {| value := Some []; resp_id := None |} 0%nat).
  - discriminate.
  - vm_compute; reflexivity.
  - reflexivity.
Defined.

Lemma findMeetingId_failure_witness :
  (findMeetingId "token" (by_organizer "ada@example.com") start_listing_only).1
  = Throw (Error "Failed to find meeting: Failed to find user: Request failed with status code 403").
Proof.
  destruct (findMeetingId_failure (E:=env_listing_only) "token"
              (by_organizer "ada@example.com") start_listing_only) as [_ H].
  - discriminate.
  - rewrite (H listing 0%nat
               (Error "Failed to find user: Request failed with status code 403")
               (findUserId "token" "ada@example.com"
                  (after_listing (E:=env_listing_only) "token" 0%nat start_listing_only)).2).
    + reflexivity.
    + vm_compute; reflexivity.
    + discriminate.
    + reflexivity.
    + vm_compute; reflexivity.
Defined.

Lemma findMeetingId_first_latest_witness :
  (findMeetingId "token" {| title := Some "Sync"; organizerEmail := None;
                            afterDate := None |} start_tied).1 = Ok (Some "m2").
Proof.
  destruct (findMeetingId_first_latest (E:=env_tied) "token"
              {| title := Some "Sync"; organizerEmail := None; afterDate := None |}
              start_tied {| value := Some tied_meetings; resp_id := None |} 0%nat
              None start_tied (meeting "m2" "Weekly Sync" 1700600000000)) as [H _].
  - discriminate.
  - vm_compute; reflexivity.
  - discriminate.
  - vm_compute; reflexivity.
  - exact H.
Defined.
